(** * SetAutoEncoder: set-matching loss, seed sampler, masks and one-cycle schedule

    A shallow embedding of the numerical core of the SetAutoEncoder
    repository:

    - [models/optimisers/one_cycle_adam.py]  (the one-cycle schedule),
    - [models/functions/prob_chamfer_distance.py]  (the probabilistic
      Chamfer loss),
    - [models/set_ae.py], [models/set_autoencoder.py],
      [models/set_vae_v2.py]  (mask derivation, forward pass, seed sampler,
      [decode_set]),
    - [mnist_vae.py]  (the training steps and their optimisers).

    Numbers.  The code computes in IEEE floats; the embedding computes in
    the rationals [Q], i.e. it describes the exact arithmetic the floats
    approximate.  Results that the code would deliver as NaN (a mean over
    an empty dimension, 0/0) are [None]; Python or TensorFlow exceptions
    are [Raise].  Equality of rationals is [Qeq], written [==]. *)

From Stdlib Require Import QArith Qminmax Qpower Qabs ZArith Lia Lqa.
From Stdlib Require String Ascii DecimalString.
From stdpp Require Import base tactics option list.

Local Open Scope Z_scope.

(** ** Outcomes: a value or a raised exception *)

Inductive exn : Type :=
| TypeError            (* wrong number of positional arguments *)
| ZeroDivisionError    (* Python [/] by zero *)
| InvalidArgumentError (* TensorFlow shape or length check *).

Inductive outcome (A : Type) : Type :=
| Ok (a : A)
| Raise (e : exn).
Arguments Ok {A} a.
Arguments Raise {A} e.

#[global] Instance outcome_ret : MRet outcome := @Ok.

#[global] Instance outcome_bind : MBind outcome := fun A B k m =>
  match m with
  | Ok a => k a
  | Raise e => Raise e
  end.

Definition raises {A : Type} (m : outcome A) : Prop := ∃ e, m = Raise e.

Definition guard (b : bool) (e : exn) : outcome unit :=
  if b then Ok tt else Raise e.

(** ** The one-cycle schedule  ([models/optimisers/one_cycle_adam.py]) *)

Module OneCycleSchedule.

(** [__init__].  [int(cycle_length * 0.1)] truncates; for an integer
    [cycle_length >= 0] that is the floor of [cycle_length / 10], and
    likewise for [0.3] and [0.6]. *)
Definition warmup_end_step (cycle_length : Z) : Z :=
  cycle_length * 1 / 10.

Definition max_end_step (cycle_length : Z) : Z :=
  warmup_end_step cycle_length + cycle_length * 3 / 10.

Definition decay_end_step (cycle_length : Z) : Z :=
  max_end_step cycle_length + cycle_length * 6 / 10.

(** True division.  A zero divisor gives no number: the quotient of the
    tensor [step] is NaN or infinite, the quotient of two Python integers
    raises. *)
Definition truediv (a b : Z) : option Q :=
  if b =? 0 then None else Some (inject_Z a / inject_Z b)%Q.

Section Branches.
Variable cycle_length : Z.
Variable step : Z.

Let _warmup_end_step := warmup_end_step cycle_length.
Let _max_end_step := max_end_step cycle_length.
Let _decay_end_step := decay_end_step cycle_length.

(** [tf.case]: the first predicate that holds selects the branch. *)
Definition case {A : Type} (warmup max_lr initial_decay final_decay : A) : A :=
  if step <=? _warmup_end_step then warmup
  else if step <=? _max_end_step then max_lr
  else if step <=? _decay_end_step then initial_decay
  else final_decay.

(** [__call__]: the learning-rate multiplier. *)
Definition call : option Q :=
  let warmup :=
    t ← truediv step _warmup_end_step;
    Some ((1 # 10) + (9 # 10) * t)%Q in
  let max_lr := Some 1%Q in
  let initial_decay :=
    let decay_step := step - _max_end_step in
    t ← truediv decay_step (_decay_end_step - _max_end_step);
    Some (1 - (9 # 10) * t)%Q in
  let final_decay :=
    let final_step := step - _decay_end_step in
    r ← truediv 1 _decay_end_step;
    Some ((1 # 10) * (1 - r) ^ final_step)%Q in
  case warmup max_lr initial_decay final_decay.

(** [get_momentum]: the momentum multiplier. *)
Definition get_momentum : option Q :=
  let warmup :=
    t ← truediv step _warmup_end_step;
    Some ((95 # 100) - (1 # 10) * t)%Q in
  let max_lr := Some (85 # 100)%Q in
  let initial_decay :=
    let decay_step := step - _max_end_step in
    t ← truediv decay_step (_decay_end_step - _max_end_step);
    Some ((85 # 100) + (1 # 10) * t)%Q in
  let final_decay := Some (95 # 100)%Q in
  case warmup max_lr initial_decay final_decay.
End Branches.

(** *** The schedule as the specification words it

    Phase boundaries [w <= m <= d]; linear interpolation inside the ramps,
    a geometric tail after [d]. *)
Definition lerp (a b t : Q) : Q := (a + (b - a) * t)%Q.

Definition in_phase (lo hi step : Q) : Q := ((step - lo) / (hi - lo))%Q.

Definition reference_lr (w m : Q) (decay_end : Z) (step : Z) : Q :=
  let s := inject_Z step in
  let d := inject_Z decay_end in
  if Qle_bool s w then lerp (1 # 10) 1 (in_phase 0 w s)
  else if Qle_bool s m then 1%Q
  else if Qle_bool s d then lerp 1 (1 # 10) (in_phase m d s)
  else ((1 # 10) * (1 - 1 / d) ^ (step - decay_end))%Q.

Definition reference_momentum (w m : Q) (decay_end : Z) (step : Z) : Q :=
  let s := inject_Z step in
  let d := inject_Z decay_end in
  if Qle_bool s w then lerp (95 # 100) (85 # 100) (in_phase 0 w s)
  else if Qle_bool s m then (85 # 100)%Q
  else if Qle_bool s d then lerp (85 # 100) (95 # 100) (in_phase m d s)
  else (95 # 100)%Q.

(** A percentage of the cycle: the boundaries sit at [percent 10],
    [percent 40] and (the integer) [cycle_length] itself. *)
Definition percent (p : positive) (cycle_length : Z) : Q :=
  (inject_Z cycle_length * (Z.pos p # 100))%Q.

(** Agreement of a computed multiplier with a reference value. *)
Definition returns (r : option Q) (q : Q) : Prop :=
  match r with
  | Some v => (v == q)%Q
  | None => False
  end.

End OneCycleSchedule.

(** ** Tensors

    A tensor is kept as its shape together with the row-major list of its
    trailing blocks.  The block type says how many trailing axes a block
    spans: a padded set [[..., Nmax, F]] has blocks of type [list Elem]
    (two axes), a batch of element distributions [[..., Nmax]] has blocks
    [list Dist] (one axis), a tensor of cardinalities or of losses has
    scalar blocks (no axis). *)

Record tensor (A : Type) : Type := Tensor { shape : list nat; blocks : list A }.
Arguments Tensor {A} shape blocks.
Arguments shape {A} t.
Arguments blocks {A} t.

(** Number of entries of a shape. *)
Definition numel (s : list nat) : nat := foldr Nat.mul 1%nat s.

(** Python's [s[:-k]]. *)
Definition drop_last {A : Type} (k : nat) (s : list A) : list A :=
  take (length s - k) s.

(** [tf.reshape(t, s)] on scalar blocks: the entries are kept in order, the
    shape must have as many entries. *)
Definition reshape {A : Type} (l : list A) (s : list nat) : outcome (tensor A) :=
  if (numel s =? length l)%nat then Ok (Tensor s l) else Raise InvalidArgumentError.

(** Columns of a list of rows: [transpose n rows !! j] collects entry [j]
    of every row.  Used for [tf.split] along the element axis and for
    [tf.stack(..., axis=-2)]. *)
Definition transpose {A : Type} (n : nat) (rows : list (list A)) : list (list A) :=
  foldr (zip_with cons) (replicate n []) rows.

(** ** Reductions *)

(** The value [unsorted_segment_max] gives an empty float32 segment. *)
Definition float32_lowest : Q := inject_Z (- ((2 ^ 24 - 1) * 2 ^ 104)).

(** [tf.reduce_max] along the last axis of one ragged row. *)
Definition reduce_max (row : list Q) : Q :=
  match row with
  | [] => float32_lowest
  | x :: r => foldl Qmax x r
  end.

(** [tf.reduce_max(axis=-2)] on the ragged rows of one batch item: entry [j]
    is the maximum over the rows that have an entry [j]. *)
Fixpoint merge_max (acc row : list Q) : list Q :=
  match acc, row with
  | [], _ => row
  | _, [] => acc
  | x :: acc', y :: row' => Qmax x y :: merge_max acc' row'
  end.

Definition reduce_max_rows (rows : list (list Q)) : list Q :=
  foldl merge_max [] rows.

Definition reduce_sum (l : list Q) : Q := foldl Qplus 0%Q l.

(** [tf.reduce_mean] along a ragged axis: total over count, not a number
    when the axis is empty. *)
Definition reduce_mean (l : list Q) : option Q :=
  match l with
  | [] => None
  | _ => Some (reduce_sum l / inject_Z (Z.of_nat (length l)))%Q
  end.

(** [reduce_max] of the cardinalities. *)
Definition largest (sizes : list nat) : nat := foldr Nat.max 0%nat sizes.

(** ** The probabilistic Chamfer loss
    ([models/functions/prob_chamfer_distance.py]) *)

Section ProbChamfer.
Variables Elem Dist : Type.
(** [log_prob d x]: the log-likelihood of the element [x] under the
    element distribution [d]. *)
Variable log_prob : Dist → Elem → Q.

(** [set_dists.log_prob(piece)] for one piece of [tf.split]: every batch
    item's element is scored by all of that item's distributions. *)
Definition dists_log_prob (set_dists : list (list Dist)) (piece : list Elem)
  : list (list Q) :=
  zip_with (λ ds x, (λ d, log_prob d x) <$> ds) set_dists piece.

(** Lines 13-25: the score matrices, one target row at a time.  Shapes
    outside the contract ([set] of shape [[..., max_size, F]], [set_dists]
    of batch shape [[..., max_size]] over the same leading axes) are
    rejected. *)
Definition log_probs_row_by_row (set_dists : tensor (list Dist))
    (set : tensor (list Elem)) (max_size : nat) : outcome (list (list (list Q))) :=
  guard (forallb (λ item, length item =? max_size)%nat (blocks set)
         && forallb (λ ds, length ds =? max_size)%nat (blocks set_dists)
         && (length (blocks set_dists) =? length (blocks set))%nat)
        InvalidArgumentError;;
  let set_row := transpose max_size (blocks set) in
  let probs :=
    foldl (λ probs i, probs ++ [dists_log_prob (blocks set_dists) (set_row !!! i)])
          [] (seq 0 max_size) in
  let log_probs := transpose (length (blocks set)) probs in
  Ok log_probs.

(** Lines 27-42: restriction to the valid block and the two directional
    reductions. *)
Definition ragged_block (size : nat) (m : list (list Q)) : list (list Q) :=
  take size (take size <$> m).

Definition setwise_distance (block : list (list Q)) : option Q :=
  let minimum_square_distance_a_to_b := reduce_max <$> block in
  let minimum_square_distance_b_to_a := reduce_max_rows block in
  a ← reduce_mean minimum_square_distance_a_to_b;
  b ← reduce_mean minimum_square_distance_b_to_a;
  Some (a + b)%Q.

Definition masked_reduction (log_probs : list (list (list Q)))
    (sizes_flat : list nat) (max_size : nat) : outcome (list (option Q)) :=
  let largest_unpadded_dim := largest sizes_flat in
  let log_probs_trimmed :=
    (λ m, take largest_unpadded_dim (take largest_unpadded_dim <$> m)) <$> log_probs in
  (* RaggedTensor.from_tensor: the nested lengths must describe a mask of
     the shape of the trimmed tensor *)
  guard ((length sizes_flat =? length log_probs_trimmed)%nat
         && (largest_unpadded_dim <=? max_size)%nat) InvalidArgumentError;;
  let ragged := zip_with ragged_block sizes_flat log_probs_trimmed in
  Ok (setwise_distance <$> ragged).

Definition prob_chamfer_distance (set_dists : tensor (list Dist))
    (set : tensor (list Elem)) (sizes : tensor nat) (max_size : nat)
  : outcome (tensor (option Q)) :=
  log_probs ← log_probs_row_by_row set_dists set max_size;
  let sizes_flat := blocks sizes in
  setwise ← masked_reduction log_probs sizes_flat max_size;
  let out_shape := drop_last 2 (shape set) in
  reshape setwise out_shape.

(** *** The full comparison tensor at once *)

Definition log_probs_full (set_dists : tensor (list Dist))
    (set : tensor (list Elem)) : list (list (list Q)) :=
  zip_with (λ ds item, (λ x, (λ d, log_prob d x) <$> ds) <$> item)
           (blocks set_dists) (blocks set).

Definition prob_chamfer_distance_full (set_dists : tensor (list Dist))
    (set : tensor (list Elem)) (sizes : tensor nat) (max_size : nat)
  : outcome (tensor (option Q)) :=
  setwise ← masked_reduction (log_probs_full set_dists set) (blocks sizes) max_size;
  reshape setwise (drop_last 2 (shape set)).

(** *** The loss as the specification words it, for one batch item

    [score i j] is the log-likelihood of target element [i] under the
    predicted distribution [j]. *)
Fixpoint max_upto (f : nat → Q) (n : nat) : Q :=
  match n with
  | O => f O
  | S k => Qmax (max_upto f k) (f (S k))
  end.

Fixpoint sum_below (f : nat → Q) (n : nat) : Q :=
  match n with
  | O => 0%Q
  | S k => (sum_below f k + f k)%Q
  end.

Definition mean_below (f : nat → Q) (n : nat) : Q :=
  (sum_below f n / inject_Z (Z.of_nat n))%Q.

Definition chamfer_reference (score : nat → nat → Q) (size : nat) : Q :=
  (mean_below (λ i, max_upto (λ j, score i j) (size - 1)) size
   + mean_below (λ j, max_upto (λ i, score i j) (size - 1)) size)%Q.

(** *** One batch item on its own

    The loss of the item whose valid part is the first [size] elements and
    the first [size] distributions. *)
Definition item_loss (ds : list Dist) (item : list Elem) (size : nat) : option Q :=
  setwise_distance ((λ x, (λ d, log_prob d x) <$> take size ds) <$> take size item).

Definition item_losses (set_dists : tensor (list Dist)) (set : tensor (list Elem))
    (sizes : tensor nat) : list (option Q) :=
  zip_with (λ s '(ds, item), item_loss ds item s)
           (blocks sizes) (zip (blocks set_dists) (blocks set)).

(** Shape contract of a call. *)
Definition well_shaped (set_dists : tensor (list Dist))
    (set : tensor (list Elem)) (sizes : tensor nat) (max_size : nat) : Prop :=
  length (blocks set) = numel (drop_last 2 (shape set))
  ∧ length (blocks set_dists) = length (blocks set)
  ∧ length (blocks sizes) = length (blocks set)
  ∧ Forall (λ item, length item = max_size) (blocks set)
  ∧ Forall (λ ds, length ds = max_size) (blocks set_dists).

End ProbChamfer.

Arguments well_shaped {Elem Dist} set_dists set sizes max_size.
Arguments item_loss {Elem Dist} log_prob ds item size.
Arguments item_losses {Elem Dist} log_prob set_dists set sizes.
Arguments prob_chamfer_distance {Elem Dist} log_prob set_dists set sizes max_size.
Arguments prob_chamfer_distance_full {Elem Dist} log_prob set_dists set sizes max_size.
Arguments log_probs_row_by_row {Elem Dist} log_prob set_dists set max_size.
Arguments log_probs_full {Elem Dist} log_prob set_dists set.
Arguments dists_log_prob {Elem Dist} log_prob set_dists piece.
Arguments chamfer_reference score size : simpl never.

(** ** Independent Normal element distributions (tensorflow_probability) *)

Module Normal.
Record params : Type := Params { loc : list Q; scale : Q }.

Section LogProb.
(** [log_normalization s] stands for [log s + log (2 pi) / 2], a number
    for [0 < s]. *)
Variable log_normalization : Q → Q.

(** The log-density at [x] of the Normal distribution of mean [mu] and
    positive standard deviation [sigma]. *)
Definition log_density1 (mu sigma x : Q) : Q :=
  (- (1 # 2) * ((x - mu) / sigma) ^ 2 - log_normalization sigma)%Q.

Definition log_density (d : params) (x : list Q) : Q :=
  reduce_sum (zip_with (λ mu xf, log_density1 mu (scale d) xf) (loc d) x).

(** [tfd.Normal(mu, sigma).log_prob(x)]: the log-density when the scale is
    positive.  The constructor does not check the scale; for a scale that
    is zero or negative the division by it and its logarithm make the
    result not a number. *)
Definition log_prob1 (mu sigma x : Q) : option Q :=
  if Qlt_le_dec 0 sigma then Some (log_density1 mu sigma x) else None.

(** [tfd.Independent(tfd.Normal(loc, scale), 1).log_prob]: the sum over
    the feature axis, not a number as soon as one of its terms is. *)
Definition log_prob (d : params) (x : list Q) : option Q :=
  reduce_sum <$> mapM (λ p : Q * Q, log_prob1 p.1 (scale d) p.2) (zip (loc d) x).
End LogProb.
End Normal.

(** ** Masks and the forward pass  ([models/set_ae.py], [models/set_vae_v2.py]) *)

(** Activations are dynamically shaped arrays. *)
#[local] Set Warnings "-register-all".
Inductive ndarray : Type :=
| Scalar (q : Q)
| Array (items : list ndarray).

(** A Keras layer or TensorFlow op whose code is not part of the
    repository: called with positional arguments, it returns an array or
    raises. *)
Definition layer : Type := list ndarray → outcome ndarray.

(** [for x in xs: a = body(a, x)] *)
Fixpoint for_each {A X : Type} (body : A → X → outcome A) (xs : list X) (a : A)
  : outcome A :=
  match xs with
  | [] => Ok a
  | x :: xs' => a' ← body a x; for_each body xs' a'
  end.

(** [tf.sequence_mask(sizes, maxlen)]: position [j] of row [b] is valid when
    [j < sizes[b]]. *)
Definition sequence_mask (sizes : list nat) (maxlen : nat) : list (list bool) :=
  (λ size, (λ j, j <? size)%nat <$> seq 0 maxlen) <$> sizes.

(** [tf.reshape(tf.cast(tf.math.logical_not(tf.sequence_mask(sizes, n)),
    tf.float32), [-1, 1, 1, n])]: one where the position is padding. *)
Definition masked_values (sizes : list nat) (max_set_size : nat) : ndarray :=
  Array ((λ row : list bool,
            Array [Array [Array ((λ valid : bool, Scalar (if negb valid then 1 else 0)%Q)
                                   <$> row)]])
           <$> sequence_mask sizes max_set_size).

(** The TensorFlow operations the models use. *)
Record tf_ops : Type := TfOps {
  tf_tile : ndarray → list nat → outcome ndarray;
  tf_expand_dims : ndarray → nat → outcome ndarray;
  tf_concat : list ndarray → nat → outcome ndarray;
  tf_flatten_to : ndarray → nat → outcome ndarray;   (* [tf.reshape(x, (-1, d))] *)
  tf_leaky_relu : ndarray → outcome ndarray;
  tf_shape_1 : ndarray → nat;                        (* [tf.shape(x)[1]] *)
}.

Record PointwiseProcessing : Type := {
  conv1 : layer;
  conv2 : layer;
}.

Definition PointwiseProcessing_call (tf : tf_ops) (self : PointwiseProcessing)
    (args : list ndarray) : outcome ndarray :=
  match args with
  | [set] =>
      x ← conv1 self [set];
      x ← tf_leaky_relu tf x;
      conv2 self [x]
  | _ => Raise TypeError
  end.

(** *** [models/set_ae.py] *)
Module SetAE.
Record SetEncoder : Type := {
  pointwise_processing : PointwiseProcessing;
  enc_transformer : list layer;
  enc_transformer_pooling : layer;
}.

Definition SetEncoder_call (tf : tf_ops) (self : SetEncoder) (args : list ndarray)
  : outcome ndarray :=
  match args with
  | [set; mask] =>
      x ← PointwiseProcessing_call tf (pointwise_processing self) [set];
      x ← for_each (λ x (transformer_i : layer), transformer_i [x; x; mask])
                   (enc_transformer self) x;
      enc_transformer_pooling self [x; mask]
  | _ => Raise TypeError
  end.

Record SetDecoder : Type := {
  embedding : layer;
  dec_transformer : list layer;
}.

Definition SetDecoder_call (self : SetDecoder) (args : list ndarray)
  : outcome ndarray :=
  match args with
  | [initial_set; mask] =>
      x ← embedding self [initial_set];
      for_each (λ x (transformer_i : layer), transformer_i [x; x; mask])
               (dec_transformer self) x
  | _ => Raise TypeError
  end.

Record SetAutoEncoder : Type := {
  max_set_size : nat;
  _encoder : SetEncoder;
  _decoder : SetDecoder;
  _set_prediction : layer;
}.

Definition call (tf : tf_ops) (self : SetAutoEncoder)
    (initial_set sampled_set : ndarray) (sizes : list nat) : outcome ndarray :=
  let masked_values := masked_values sizes (max_set_size self) in
  encoded ← SetEncoder_call tf (_encoder self) [initial_set; masked_values];
  encoded_shaped ← tf_tile tf encoded [1; max_set_size self; 1]%nat;
  sampled_elements_conditioned ← tf_concat tf [sampled_set; encoded_shaped] 2;
  pred_set_latent ← SetDecoder_call (_decoder self)
                      [sampled_elements_conditioned; masked_values];
  _set_prediction self [pred_set_latent].
End SetAE.

(** *** [models/set_vae_v2.py] *)
Module SetVaeV2.
Record SetEncoder : Type := {
  trans_dim : nat;
  pointwise_processing : PointwiseProcessing;
  enc_transformer : list layer;
  enc_transformer_pooling : layer;
  out_parameterization1 : layer;
  out_parameterization2 : layer;
  out_dist : layer;
}.

Definition SetEncoder_call (tf : tf_ops) (self : SetEncoder) (args : list ndarray)
  : outcome ndarray :=
  match args with
  | [set; mask] =>
      x ← PointwiseProcessing_call tf (pointwise_processing self) [set];
      x ← for_each (λ x (transformer_i : layer), transformer_i [x; x; mask])
                   (enc_transformer self) x;
      merged ← enc_transformer_pooling self [x; mask];
      merged ← tf_flatten_to tf merged (trans_dim self);
      dist_params ← out_parameterization1 self [merged];
      dist_params ← out_parameterization2 self [dist_params];
      out_dist self [dist_params]
  | _ => Raise TypeError
  end.

(** [condition_dense] and [transformer] have [num_layers] entries each;
    the loop visits them pairwise. *)
Record SetDecoder : Type := {
  initial_dense : layer;
  condition_dense_transformer : list (layer * layer);
  dec_transformer_pooling : layer;
}.

(** [SetDecoder.call(self, initial_set, mask, conditioning)]: three
    required positional parameters. *)
Definition SetDecoder_call (tf : tf_ops) (self : SetDecoder) (args : list ndarray)
  : outcome ndarray :=
  match args with
  | [initial_set; mask; conditioning] =>
      x ← initial_dense self [initial_set];
      for_each
        (λ x '(condition_dense_i, transformer_i),
           current_pooled ← dec_transformer_pooling self [x; mask];
           current_pooled ← tf_tile tf current_pooled [1; tf_shape_1 tf x; 1]%nat;
           x ← tf_concat tf [x; conditioning; current_pooled] 2;
           x ← (condition_dense_i : layer) [x];
           (transformer_i : layer) [x; x; mask])
        (condition_dense_transformer self) x
  | _ => Raise TypeError
  end.

Record SetVariationalAutoEncoderV2 : Type := {
  max_set_size : nat;
  _encoder : SetEncoder;
  _decoder : SetDecoder;
  _set_prediction_mean : layer;
(** [.mode()] and [.sample()] of the encoder's output distribution, the
    latter for the current state of the random generator *)
mode : ndarray → outcome ndarray;
sample : ndarray → outcome ndarray;
}.

Definition call (tf : tf_ops) (self : SetVariationalAutoEncoderV2)
    (initial_set sampled_set : ndarray) (sizes : list nat) (eval_mode : bool)
  : outcome ndarray :=
  let masked_values := masked_values sizes (max_set_size self) in
  encoded ← (if eval_mode
             then d ← SetEncoder_call tf (_encoder self) [initial_set; masked_values];
                  mode self d
             else d ← SetEncoder_call tf (_encoder self) [initial_set; masked_values];
                  sample self d);
  encoded_shaped ← tf_expand_dims tf encoded 1;
  conditioning ← tf_tile tf encoded_shaped [1; max_set_size self; 1]%nat;
  pred_set_latent ← SetDecoder_call tf (_decoder self)
                      [sampled_set; masked_values; conditioning];
  _set_prediction_mean self [pred_set_latent].

(** The result of [decode_set]: [tfd.Independent(tfd.Normal(mean, scale), 1)]. *)
Record IndependentNormal : Type := { mean : ndarray; scale : Q }.

Definition decode_set (tf : tf_ops) (self : SetVariationalAutoEncoderV2)
    (set_latent initial_set : ndarray) (sizes : list nat)
  : outcome IndependentNormal :=
  let masked_values := masked_values sizes (max_set_size self) in
  encoded_shaped ← tf_expand_dims tf set_latent 1;
  encoded_shaped ← tf_tile tf encoded_shaped [1; max_set_size self; 1]%nat;
  sampled_elements_conditioned ← tf_concat tf [initial_set; encoded_shaped] 2;
  pred_set_latent ← SetDecoder_call tf (_decoder self)
                      [sampled_elements_conditioned; masked_values];
  mean ← _set_prediction_mean self [pred_set_latent];
  Ok {| mean := mean; scale := (5 # 1000)%Q |}.
End SetVaeV2.

(** Layers and operations that pass their first argument through: enough to
    run a forward pass on concrete data. *)
Module Passthrough.
Definition first : layer := λ args,
  match args with
  | x :: _ => Ok x
  | [] => Raise TypeError
  end.

Definition tf : tf_ops := {|
  tf_tile := λ x _, Ok x;
  tf_expand_dims := λ x _, Ok x;
  tf_concat := λ xs _, first xs;
  tf_flatten_to := λ x _, Ok x;
  tf_leaky_relu := λ x, Ok x;
  tf_shape_1 := λ _, 0%nat;
|}.

Definition pointwise : PointwiseProcessing := {| conv1 := first; conv2 := first |}.

Definition set_ae (n : nat) : SetAE.SetAutoEncoder := {|
  SetAE.max_set_size := n;
  SetAE._encoder := {| SetAE.pointwise_processing := pointwise;
                       SetAE.enc_transformer := [first];
                       SetAE.enc_transformer_pooling := first |};
  SetAE._decoder := {| SetAE.embedding := first; SetAE.dec_transformer := [first] |};
  SetAE._set_prediction := first;
|}.

Definition set_vae_v2 (n : nat) : SetVaeV2.SetVariationalAutoEncoderV2 := {|
  SetVaeV2.max_set_size := n;
  SetVaeV2._encoder := {| SetVaeV2.trans_dim := 1;
                          SetVaeV2.pointwise_processing := pointwise;
                          SetVaeV2.enc_transformer := [first];
                          SetVaeV2.enc_transformer_pooling := first;
                          SetVaeV2.out_parameterization1 := first;
                          SetVaeV2.out_parameterization2 := first;
                          SetVaeV2.out_dist := first |};
  SetVaeV2._decoder := {| SetVaeV2.initial_dense := first;
                          SetVaeV2.condition_dense_transformer := [(first, first)];
                          SetVaeV2.dec_transformer_pooling := first |};
  SetVaeV2._set_prediction_mean := first;
  SetVaeV2.mode := Ok;
  SetVaeV2.sample := Ok;
|}.

Definition points : ndarray :=
  Array [Array [Array [Scalar (1 # 2); Scalar (3 # 4)];
                Array [Scalar (1 # 10); Scalar (1 # 4)];
                Array [Scalar (35 # 100); Scalar (9 # 10)]]]%Q.
End Passthrough.

(** ** The stochastic seed sampler
    ([SetAutoEncoder.sample_prior_batch], [Tspn.sample_prior_batch]) *)

Section SamplePrior.
(** [self._prior(total_elements)]: the samples drawn from the base
    distribution for the current state of the random generator, one row
    of features per requested element.  The class ([StochasticSetPrior],
    [SetPrior]) is not part of the sources at hand. *)
Variable _prior : nat → list (list Q).
Variable pad_value : Q.
Variable max_set_size : nat.
Variable num_element_features : nat.

Definition reduce_sum_sizes (sizes : list nat) : nat := foldr Nat.add 0%nat sizes.

Definition sample_prior (sizes : list nat) : list (list Q) :=
  let total_elements := reduce_sum_sizes sizes in
  _prior total_elements.

(** [tf.RaggedTensor.from_row_lengths(values, row_lengths)]: consecutive
    rows of the given lengths; the lengths must add up to the number of
    values. *)
Fixpoint split_rows {A : Type} (values : list A) (row_lengths : list nat)
  : list (list A) :=
  match row_lengths with
  | [] => []
  | n :: rest => take n values :: split_rows (drop n values) rest
  end.

Definition from_row_lengths {A : Type} (values : list A) (row_lengths : list nat)
  : outcome (list (list A)) :=
  if (reduce_sum_sizes row_lengths =? length values)%nat
  then Ok (split_rows values row_lengths)
  else Raise InvalidArgumentError.

(** Padding or truncating one axis to [n] entries. *)
Definition resize {A : Type} (n : nat) (fill : A) (l : list A) : list A :=
  take n l ++ replicate (n - length l) fill.

(** [ragged.to_tensor(default_value, shape=[b, n, f])]: the ragged axes are
    padded or truncated, the dense feature axis must already have [f]
    entries. *)
Definition to_tensor (ragged : list (list (list Q))) (default_value : Q)
    (b n f : nat) : outcome (list (list (list Q))) :=
  if forallb (forallb (λ x : list Q, length x =? f)%nat) ragged
  then Ok (resize b (replicate n (replicate f default_value))
             (resize n (replicate f default_value) <$> ragged))
  else Raise InvalidArgumentError.

Definition sample_prior_batch (sizes : list nat) : outcome (list (list (list Q))) :=
  let sampled_elements := sample_prior sizes in
  samples_ragged ← from_row_lengths sampled_elements sizes;
  to_tensor samples_ragged pad_value (length sizes) max_set_size num_element_features.
End SamplePrior.

(** ** The training steps and their optimisers  ([mnist_vae.py]) *)

Module Trainer.
(** The three parameter collections the model hands out. *)
Inductive weights : Type :=
| autoencoder_weights      (* [get_autoencoder_weights()] *)
| prior_weights            (* [get_prior_weights()] *)
| size_predictor_weights   (* [get_size_predictor_weights()] *).

(** The three optimisers built in [__init__]. *)
Inductive optimiser : Type :=
| reconstruction_optimiser (* [OneCycleAdamW(reconstruction_learning_rate, ...)] *)
| prior_optimiser          (* [Adam(prior_learning_rate)] *)
| size_pred_optimiser      (* [Adam(size_pred_learning_rate)] *).

#[global] Instance optimiser_eq_dec : EqDecision optimiser.
Proof. solve_decision. Defined.
#[global] Instance weights_eq_dec : EqDecision weights.
Proof. solve_decision. Defined.

(** What training has done so far: how many updates each optimiser has
    applied ([optimizer.iterations]) and which optimiser wrote to which
    collection, oldest first. *)
Record state : Type := State {
  iterations : optimiser → nat;
  applied : list (optimiser * weights);
}.

Definition init : state := {| iterations := λ _, 0%nat; applied := [] |}.

(** [opt.apply_gradients(zip(grads, trainables))] *)
Definition apply_gradients (opt : optimiser) (trainables : weights) (st : state)
  : state :=
  {| iterations := λ o, if decide (o = opt) then S (iterations st o) else iterations st o;
     applied := applied st ++ [(opt, trainables)] |}.

Definition train_vae_step (st : state) : state :=
  let model_trainables := autoencoder_weights in
  apply_gradients reconstruction_optimiser model_trainables st.

Definition train_size_predictor_step (st : state) : state :=
  let size_trainables := size_predictor_weights in
  apply_gradients reconstruction_optimiser size_trainables st.

(** The optimiser the configuration builds for each collection (one
    learning rate per collection in [set_config]). *)
Definition owner (w : weights) : optimiser :=
  match w with
  | autoencoder_weights => reconstruction_optimiser
  | prior_weights => prior_optimiser
  | size_predictor_weights => size_pred_optimiser
  end.

(** [train_reconstruction] and [train_size_predictor] run one kind of
    step over and over. *)
Definition train_reconstruction (steps : nat) (st : state) : state :=
  Nat.iter steps train_vae_step st.

Definition train_size_predictor (steps : nat) (st : state) : state :=
  Nat.iter steps train_size_predictor_step st.
End Trainer.

(** A prior for running the sampler on concrete data: sample [i] is
    [[i, 7]]. *)
Module CountingPrior.
Definition _prior (n : nat) : list (list Q) :=
  (λ i : nat, [inject_Z (Z.of_nat i); 7%Q]) <$> seq 0 n.
Definition sizes : list nat := [2; 1; 3]%nat.
End CountingPrior.

(** ** The optimiser built on the schedule  ([OneCycleAdamW]) *)

Module OneCycleAdamW.
(** The constructor's arguments. *)
Record optimiser : Type := {
  learning_rate : Q;
  weight_decay : Q;
  cycle_length : Z;
}.

(** [lr = lambda: learning_rate * self.one_cycle_schedule(self.iterations)] *)
Definition lr (self : optimiser) (iterations : Z) : option Q :=
  factor ← OneCycleSchedule.call (cycle_length self) iterations;
  Some (learning_rate self * factor)%Q.

(** [wd = lambda: weight_decay * self.one_cycle_schedule(self.iterations)] *)
Definition wd (self : optimiser) (iterations : Z) : option Q :=
  factor ← OneCycleSchedule.call (cycle_length self) iterations;
  Some (weight_decay self * factor)%Q.

(** [momentum = lambda: self.one_cycle_schedule.get_momentum(self.iterations)],
    passed as [beta_1]; [beta_2] is fixed. *)
Definition momentum (self : optimiser) (iterations : Z) : option Q :=
  OneCycleSchedule.get_momentum (cycle_length self) iterations.

Definition beta_2 : Q := (99 # 100)%Q.
End OneCycleAdamW.

(** ** The size targets and the decoded sizes
    ([MnistVariationalAutoencoder.size_predictor_loss]) *)

Module SizePredictor.
(** [tf.one_hot(index, depth)] for one index: a one at position [index],
    zeros elsewhere; an index outside [0, depth) gives a row of zeros. *)
Definition one_hot (index : Z) (depth : nat) : list Q :=
  (λ j : nat, if (Z.of_nat j =? index)%Z then 1%Q else 0%Q) <$> seq 0 depth.

(** [one_hot_sizes = tf.one_hot(sizes - 1, self.max_set_size)] *)
Definition one_hot_sizes (sizes : list nat) (max_set_size : nat) : list (list Q) :=
  (λ size : nat, one_hot (Z.of_nat size - 1) max_set_size) <$> sizes.

(** [tf.argmax] along one row: the position of the largest entry (the first
    one, should several entries be largest). *)
Fixpoint argmax_from (best_index : nat) (best : Q) (index : nat) (row : list Q)
  : nat :=
  match row with
  | [] => best_index
  | x :: row' =>
      if Qle_bool x best then argmax_from best_index best (S index) row'
      else argmax_from index x (S index) row'
  end.

Definition argmax (row : list Q) : nat :=
  match row with
  | [] => 0%nat
  | x :: row' => argmax_from 0 x 1 row'
  end.

(** [predicted_sizes = tf.cast(tf.argmax(pred_sizes, 1), tf.int32) + 1] *)
Definition predicted_sizes (pred_sizes : list (list Q)) : list nat :=
  (λ row : list Q, argmax row + 1)%nat <$> pred_sizes.
End SizePredictor.

(** ** Choosing the checkpoint to load
    ([MnistVariationalAutoencoder.__init__], lines 64-84) *)

Module Checkpoints.
Import Ascii String.
Local Open Scope string_scope.

(** What the selection can raise: [decimal.InvalidOperation] from
    [Decimal] of the empty string, [IndexError] from [[-1]] or [[0]] on an
    empty list. *)
Inductive error : Type := InvalidOperation | IndexError.

Inductive result (A : Type) : Type :=
| Found (a : A)
| Failed (e : error).
Arguments Found {A} a.
Arguments Failed {A} e.

(** Paths are ASCII strings; the pattern [\D] is then every character but
    [0]-[9]. *)
Definition is_digit (c : ascii) : bool :=
  (48 <=? nat_of_ascii c)%nat && (nat_of_ascii c <=? 57)%nat.

(** [re.sub]: every character matching [\D] is deleted from [value]. *)
Fixpoint sub_non_digits (value : string) : string :=
  match value with
  | EmptyString => EmptyString
  | String c rest =>
      if is_digit c then String c (sub_non_digits rest) else sub_non_digits rest
  end.

Definition digit_value (c : ascii) : N := (N_of_ascii c - 48)%N.

(** The number a string of digits spells, continuing from [acc]. *)
Fixpoint decimal_from (acc : N) (digits : string) : N :=
  match digits with
  | EmptyString => acc
  | String c rest => decimal_from (acc * 10 + digit_value c)%N rest
  end.

(** [extract_sortable_value]: [decimal.Decimal] of the digits left. *)
Definition extract_sortable_value (value : string) : result N :=
  match sub_non_digits value with
  | EmptyString => Failed InvalidOperation
  | first_value => Found (decimal_from 0 first_value)
  end.

(** The keys of all entries, the first failure if there is one. *)
Fixpoint with_keys (entries : list string) : result (list (N * string)) :=
  match entries with
  | [] => Found []
  | x :: rest =>
      match extract_sortable_value x with
      | Failed e => Failed e
      | Found k =>
          match with_keys rest with
          | Failed e => Failed e
          | Found keyed => Found ((k, x) :: keyed)
          end
      end
  end.

(** [sorted(entries, key=extract_sortable_value)]: ascending and stable. *)
Fixpoint insert_sorted (x : N * string) (sorted : list (N * string))
  : list (N * string) :=
  match sorted with
  | [] => [x]
  | y :: rest =>
      if (fst x <=? fst y)%N then x :: y :: rest else y :: insert_sorted x rest
  end.

Definition sorted (entries : list string) : result (list string) :=
  match with_keys entries with
  | Failed e => Failed e
  | Found keyed => Found (snd <$> foldr insert_sorted [] keyed)
  end.

(** [entries[-1]] and [entries[0]] *)
Definition last_entry (entries : list string) : result string :=
  match last entries with
  | Some x => Found x
  | None => Failed IndexError
  end.

Definition first_entry (entries : list string) : result string :=
  match entries with
  | x :: _ => Found x
  | [] => Failed IndexError
  end.

(** [needle in hay] *)
Fixpoint contains (needle hay : string) : bool :=
  prefix needle hay
  || match hay with
     | EmptyString => false
     | String _ rest => contains needle rest
     end.

(** [str(n)] for an integer. *)
Definition str (n : Z) : string :=
  DecimalString.NilZero.string_of_int (Z.to_int n).

(** [f.path] of an entry [name] found by [os.scandir(folder)]. *)
Definition entry_path (folder name : string) : string :=
  match folder with
  | EmptyString => name
  | _ => if prefix "/" (substring (String.length folder - 1) 1 folder)
         then folder ++ name
         else folder ++ "/" ++ name
  end.

Definition checkpoint_folder : string := "logs/checkpoints/vae/".

(** The step folder within the latest run (lines 76-82). *)
Definition select_step (step_ckpnts : list string) (load_step : Z) : result string :=
  if (load_step =? -1)%Z
  then match sorted step_ckpnts with
       | Failed e => Failed e
       | Found step_ckpnts => last_entry step_ckpnts
       end
  else first_entry (filter (λ x, contains (str load_step) x = true) step_ckpnts).

(** The path handed to [load_weights].  [scandir folder] lists the names of
    the sub-directories of [folder] in the order the system yields them. *)
Definition weights_path (scandir : string → list string) (load_step : Z)
  : result string :=
  let run_folders := entry_path checkpoint_folder <$> scandir checkpoint_folder in
  match sorted run_folders with
  | Failed e => Failed e
  | Found run_folders =>
      match last_entry run_folders with
      | Failed e => Failed e
      | Found latest_run =>
          let step_ckpnts := entry_path latest_run <$> scandir latest_run in
          match select_step step_ckpnts load_step with
          | Failed e => Failed e
          | Found step_folder => Found (step_folder ++ "/")
          end
      end
  end.

(** The names [str(step)] gives the step folders when they are saved: digits
    only, at least one, and no leading zero except for the name of step 0. *)
Fixpoint all_digits (name : string) : bool :=
  match name with
  | EmptyString => true
  | String c rest => is_digit c && all_digits rest
  end.

Definition step_name (name : string) : Prop :=
  all_digits name = true
  ∧ name ≠ EmptyString
  ∧ (prefix "0" name = true → name = "0").

(** A directory tree for running the selection: two runs, the later one
    with checkpoints at steps 500, 1000 and 1500. *)
Definition example_tree (folder : string) : list string :=
  if String.eqb folder "logs/checkpoints/vae/"
  then ["20201005-101530"; "20201004-235959"]
  else if String.eqb folder "logs/checkpoints/vae/20201005-101530"
  then ["500"; "1500"; "1000"]
  else [].
End Checkpoints.

(** ** The sets of the self-test of [prob_chamfer_distance.py] *)

Module SelfTest.
(** [mean], a batch of two sets of three two-dimensional points. *)
Definition mean0 : list (list Q) := [[1 # 2; 3 # 4]; [1 # 10; 1 # 4]; [35 # 100; 9 # 10]]%Q.
Definition mean1 : list (list Q) := [[4 # 10; 45 # 100]; [1 # 2; 7 # 10]; [8 # 10; 1 # 4]]%Q.
Definition mean : tensor (list (list Q)) := Tensor [2; 3; 2]%nat [mean0; mean1].

(** [tfd.Independent(tfd.Normal(mean, scale), 1)] *)
Definition independent_normal (m : tensor (list (list Q))) (scale : Q)
  : tensor (list Normal.params) :=
  Tensor (drop_last 1 (shape m))
         ((λ item : list (list Q), (λ mu, Normal.Params mu scale) <$> item) <$> blocks m).

Definition dist : tensor (list Normal.params) := independent_normal mean (5 # 1000).

Definition sizes33 : tensor nat := Tensor [2%nat] [3; 3]%nat.

(** The same data when only two, respectively all three, elements are
    valid; [mean_padded] differs from [mean] in the padded slot. *)
Definition sizes23 : tensor nat := Tensor [2%nat] [2; 3]%nat.
Definition mean_padded : tensor (list (list Q)) :=
  Tensor [2; 3; 2]%nat [[[1 # 2; 3 # 4]; [1 # 10; 1 # 4]; [-1; -1]]%Q; mean1].

(** A log-normalisation term for evaluating examples, and the scores of
    distributions of positive scale such as [dist]. *)
Definition log_normalization (scale : Q) : Q := (-4)%Q.
Definition log_prob : Normal.params → list Q → Q := Normal.log_density log_normalization.

(** The single set of the self-match check, as a batch of one. *)
Definition target : tensor (list (list Q)) := Tensor [1; 3; 2]%nat [mean0].
Definition size3 : tensor nat := Tensor [1%nat] [3%nat].

(** [closest_prob = dist.log_prob(mean)]: every element under the
    distribution at its own position. *)
Definition closest_prob (log_prob : Normal.params → list Q → Q)
    (dist : tensor (list Normal.params)) (m : tensor (list (list Q)))
  : list (list Q) :=
  zip_with (zip_with log_prob) (blocks dist) (blocks m).

(** The set with two equal points of the imbalance check, against
    distributions of scale 1. *)
Definition imb_mean : tensor (list (list Q)) :=
  Tensor [1; 2; 2]%nat [[[1 # 2; 3 # 4]; [1 # 10; 1 # 4]]%Q].
Definition imb_true : tensor (list (list Q)) :=
  Tensor [1; 2; 2]%nat [[[1 # 2; 3 # 4]; [1 # 2; 3 # 4]]%Q].
Definition size2 : tensor nat := Tensor [1%nat] [2%nat].
End SelfTest.

(** * Properties *)

(** ** Lists, transposition and the row loop *)

Section ListFacts.
Context {A B : Type}.

Lemma foldl_snoc_fmap (f : nat → B) (l : list nat) (acc : list B) :
  foldl (λ probs i, probs ++ [f i]) acc l = acc ++ (f <$> l).
Proof.
  revert acc. induction l as [|i l IH]; intros acc; simpl.
  - by rewrite app_nil_r.
  - rewrite IH. by rewrite <- app_assoc.
Qed.

Lemma fmap_lookup_total_seq `{Inhabited A} (l : list A) :
  (λ i, l !!! i) <$> seq 0 (length l) = l.
Proof.
  apply list_eq. intros i. rewrite list_lookup_fmap.
  destruct (decide (i < length l)%nat) as [Hi|Hi].
  - rewrite lookup_seq_lt by done. simpl.
    destruct (lookup_lt_is_Some_2 l i Hi) as [x Hx].
    rewrite Hx. f_equal. by apply list_lookup_total_correct.
  - rewrite lookup_seq_ge by lia. simpl.
    symmetry. apply lookup_ge_None. lia.
Qed.

Lemma transpose_length (n : nat) (rows : list (list A)) :
  Forall (λ r, length r = n) rows → length (transpose n rows) = n.
Proof.
  induction 1 as [|r rows Hr _ IH]; simpl.
  - by rewrite length_replicate.
  - rewrite length_zip_with. fold (transpose n rows). lia.
Qed.

(** Adding one column in front of every row adds one row in front of the
    transpose. *)
Lemma transpose_cons_column (n : nat) (col : list A) (rows : list (list A)) :
  length col = length rows →
  transpose (S n) (zip_with cons col rows) = col :: transpose n rows.
Proof.
  revert col. induction rows as [|r rows IH]; intros [|c col] Hlen;
    simpl in *; try done.
  fold (transpose (S n) (zip_with cons col rows)).
  rewrite IH by lia. done.
Qed.
End ListFacts.

(** ** The reductions on index-given rows *)

Section ReductionFacts.

Lemma foldl_max_upto (f : nat → Q) (n : nat) :
  foldl Qmax (f O) (f <$> seq 1 n) = max_upto f n.
Proof.
  induction n as [|n IH]; [done|].
  rewrite seq_S, fmap_app, foldl_app, IH. done.
Qed.

Lemma reduce_max_seq (f : nat → Q) (n : nat) :
  reduce_max (f <$> seq 0 (S n)) = max_upto f n.
Proof. apply foldl_max_upto. Qed.

Lemma merge_max_fmap {X : Type} (g h : X → Q) (l : list X) :
  merge_max (g <$> l) (h <$> l) = (λ j, Qmax (g j) (h j)) <$> l.
Proof. induction l as [|x l IH]; csimpl; [done|]. by rewrite IH. Qed.

Lemma reduce_max_rows_seq (f : nat → nat → Q) (n m : nat) :
  reduce_max_rows ((λ i, (λ j, f i j) <$> seq 0 m) <$> seq 0 (S n))
  = (λ j, max_upto (λ i, f i j) n) <$> seq 0 m.
Proof.
  unfold reduce_max_rows. induction n as [|n IH]; [done|].
  rewrite seq_S, fmap_app, foldl_app, IH. simpl.
  by rewrite merge_max_fmap.
Qed.

Lemma reduce_sum_seq (f : nat → Q) (n : nat) :
  reduce_sum (f <$> seq 0 n) = sum_below f n.
Proof.
  unfold reduce_sum. induction n as [|n IH]; [done|].
  rewrite seq_S, fmap_app, foldl_app, IH. done.
Qed.

Lemma reduce_mean_seq (f : nat → Q) (n : nat) :
  reduce_mean (f <$> seq 0 (S n)) = Some (mean_below f (S n)).
Proof.
  unfold reduce_mean, mean_below.
  rewrite <- reduce_sum_seq.
  change (f <$> seq 0 (S n)) with (f 0%nat :: (f <$> seq 1 n)) at 1.
  cbv iota. by rewrite length_fmap, length_seq.
Qed.

Lemma setwise_distance_seq (f : nat → nat → Q) (n : nat) :
  setwise_distance ((λ i, (λ j, f i j) <$> seq 0 (S n)) <$> seq 0 (S n))
  = Some (chamfer_reference f (S n)).
Proof.
  unfold setwise_distance, chamfer_reference.
  replace (S n - 1)%nat with n by lia.
  rewrite reduce_max_rows_seq, reduce_mean_seq.
  rewrite <- list_fmap_compose.
  rewrite (list_fmap_ext _ (λ i, max_upto (λ j, f i j) n) (seq 0 (S n))).
  2:{ intros _ i _. apply reduce_max_seq. }
  by rewrite reduce_mean_seq.
Qed.

Lemma take_fmap_seq {X : Type} (a : nat → X) (l : list X) (n : nat) :
  (∀ i, (i < n)%nat → l !! i = Some (a i)) → take n l = a <$> seq 0 n.
Proof.
  intros Hl. apply list_eq. intros i. rewrite list_lookup_fmap.
  destruct (decide (i < n)%nat) as [Hi|Hi].
  - rewrite lookup_take_lt, lookup_seq_lt by done. simpl. by apply Hl.
  - rewrite lookup_take_ge, lookup_seq_ge by lia. done.
Qed.

Lemma largest_ge (sizes : list nat) (s : nat) :
  s ∈ sizes → (s ≤ largest sizes)%nat.
Proof.
  induction sizes as [|x sizes IH]; simpl; [by intros ?%elem_of_nil|].
  intros [->|Hs]%elem_of_cons; [lia|].
  specialize (IH Hs). lia.
Qed.
End ReductionFacts.

Section ProbChamferFacts.
Context {Elem Dist : Type}.
Variable log_prob : Dist → Elem → Q.

Abbreviation score_rows ds := (λ x : Elem, (λ d : Dist, log_prob d x) <$> ds).

Lemma dists_log_prob_columns (n : nat) (ds : list Dist) (dists : list (list Dist))
    (item : list Elem) (cols : list (list Elem)) :
  length item = length cols →
  dists_log_prob log_prob (ds :: dists) <$> zip_with cons item cols
  = zip_with cons (score_rows ds <$> item)
      (dists_log_prob log_prob dists <$> cols).
Proof.
  revert cols. induction item as [|x item IH]; intros [|c cols] Hlen;
    simpl in *; try done.
  rewrite IH by lia. done.
Qed.

(** Splitting along the element axis, scoring every piece and stacking
    the pieces again is scoring every element of every item. *)
Lemma stack_of_scored_pieces (n : nat) (dists : list (list Dist))
    (items : list (list Elem)) :
  length dists = length items →
  Forall (λ item, length item = n) items →
  transpose (length items)
    (dists_log_prob log_prob dists <$> transpose n items)
  = zip_with (λ ds item, score_rows ds <$> item) dists items.
Proof.
  intros Hlen Hall. revert dists Hlen.
  induction Hall as [|item items Hitem Hall IH]; intros [|ds dists] Hlen;
    simpl in *; try done.
  - clear. by induction n.
  - fold (transpose n items).
    rewrite (dists_log_prob_columns n).
    2:{ rewrite transpose_length; done. }
    rewrite transpose_cons_column.
    2:{ rewrite !length_fmap, transpose_length; done. }
    f_equal. apply IH. lia.
Qed.

Lemma forallb_length_eq {X : Type} (n : nat) (l : list (list X)) :
  forallb (λ item, length item =? n)%nat l = true ↔ Forall (λ item, length item = n) l.
Proof.
  rewrite forallb_forall, Forall_forall. setoid_rewrite Nat.eqb_eq.
  split; intros Hl x Hx; apply Hl; by apply list_elem_of_In.
Qed.

(** The row-by-row matrices are the matrices of the full comparison. *)
Lemma row_by_row_is_full (set_dists : tensor (list Dist))
    (set : tensor (list Elem)) (max_size : nat) :
  length (blocks set_dists) = length (blocks set) →
  Forall (λ item, length item = max_size) (blocks set) →
  Forall (λ ds, length ds = max_size) (blocks set_dists) →
  log_probs_row_by_row log_prob set_dists set max_size
  = Ok (log_probs_full log_prob set_dists set).
Proof.
  intros Hlen Hset Hdists. unfold log_probs_row_by_row, log_probs_full.
  rewrite (proj2 (forallb_length_eq _ _) Hset).
  rewrite (proj2 (forallb_length_eq _ _) Hdists).
  rewrite (proj2 (Nat.eqb_eq _ _) Hlen). simpl.
  f_equal. rewrite foldl_snoc_fmap. simpl.
  pose proof (transpose_length max_size (blocks set) Hset) as Hcols.
  set (pieces := transpose max_size (blocks set)) in *.
  assert ((λ i, dists_log_prob log_prob (blocks set_dists) (pieces !!! i))
            <$> seq 0 max_size
          = dists_log_prob log_prob (blocks set_dists) <$> pieces) as ->.
  { rewrite <- Hcols.
    transitivity (dists_log_prob log_prob (blocks set_dists)
                    <$> ((λ i, pieces !!! i) <$> seq 0 (length pieces))).
    - by rewrite <- list_fmap_compose.
    - by rewrite fmap_lookup_total_seq. }
  by apply stack_of_scored_pieces.
Qed.

Lemma ragged_block_trim (size l : nat) (m : list (list Q)) :
  (size ≤ l)%nat →
  ragged_block size (take l (take l <$> m)) = ragged_block size m.
Proof.
  intros Hle. unfold ragged_block.
  rewrite fmap_take, take_take, <- list_fmap_compose.
  replace (size `min` l)%nat with size by lia.
  f_equal. apply list_fmap_ext. intros _ row _. simpl.
  rewrite take_take. f_equal. lia.
Qed.

Lemma zip_ragged_block_trim (sizes : list nat) (l : nat) (ms : list (list (list Q))) :
  Forall (λ s, s ≤ l)%nat sizes →
  zip_with ragged_block sizes ((λ m, take l (take l <$> m)) <$> ms)
  = zip_with ragged_block sizes ms.
Proof.
  intros Hall. revert ms. induction Hall as [|s sizes Hs _ IH]; intros [|m ms];
    simpl; try done.
  by rewrite IH, ragged_block_trim.
Qed.

(** Trimming to the largest cardinality changes nothing that the ragged
    restriction keeps. *)
Lemma masked_reduction_unfold (log_probs : list (list (list Q)))
    (sizes_flat : list nat) (max_size : nat) :
  masked_reduction log_probs sizes_flat max_size
  = (guard ((length sizes_flat =? length log_probs)%nat
            && (largest sizes_flat <=? max_size)%nat) InvalidArgumentError;;
     Ok (setwise_distance <$> zip_with ragged_block sizes_flat log_probs)).
Proof.
  unfold masked_reduction. rewrite length_fmap.
  rewrite zip_ragged_block_trim; [done|].
  apply Forall_forall. intros s Hs. by apply largest_ge.
Qed.

Lemma ragged_block_scores (ds : list Dist) (item : list Elem) (size : nat) :
  ragged_block size (score_rows ds <$> item)
  = score_rows (take size ds) <$> take size item.
Proof.
  unfold ragged_block. rewrite <- list_fmap_compose, <- fmap_take.
  apply list_fmap_ext. intros _ x _. simpl. by rewrite fmap_take.
Qed.

Lemma setwise_item_losses (set_dists : tensor (list Dist))
    (set : tensor (list Elem)) (sizes : tensor nat) :
  setwise_distance
    <$> zip_with ragged_block (blocks sizes) (log_probs_full log_prob set_dists set)
  = item_losses log_prob set_dists set sizes.
Proof.
  unfold item_losses, log_probs_full.
  generalize (blocks sizes) (blocks set_dists) (blocks set).
  induction l as [|s l IH]; intros [|ds dists] [|item items]; simpl; try done.
  rewrite IH. unfold item_loss. by rewrite ragged_block_scores.
Qed.

(** The call on inputs of the contracted shapes. *)
Lemma prob_chamfer_distance_unfold (set_dists : tensor (list Dist))
    (set : tensor (list Elem)) (sizes : tensor nat) (max_size : nat) :
  well_shaped set_dists set sizes max_size →
  prob_chamfer_distance log_prob set_dists set sizes max_size
  = if (largest (blocks sizes) <=? max_size)%nat
    then Ok (Tensor (drop_last 2 (shape set)) (item_losses log_prob set_dists set sizes))
    else Raise InvalidArgumentError.
Proof.
  intros (Hnumel & Hdists & Hsizes & Hitems & Hds).
  unfold prob_chamfer_distance.
  rewrite row_by_row_is_full by done. simpl.
  rewrite masked_reduction_unfold, setwise_item_losses.
  assert (length (log_probs_full log_prob set_dists set)
          = length (blocks set)) as Hfull.
  { unfold log_probs_full. rewrite length_zip_with. lia. }
  rewrite Hfull, Hsizes, Nat.eqb_refl. simpl.
  destruct (largest (blocks sizes) <=? max_size)%nat; simpl; [|done].
  unfold reshape.
  assert (length (item_losses log_prob set_dists set sizes) = length (blocks set)) as ->.
  { unfold item_losses. rewrite length_zip_with, length_zip. lia. }
  by rewrite <- Hnumel, Nat.eqb_refl.
Qed.

Lemma item_losses_lookup (set_dists : tensor (list Dist))
    (set : tensor (list Elem)) (sizes : tensor nat) (b : nat)
    (ds : list Dist) (item : list Elem) (size : nat) :
  blocks set_dists !! b = Some ds →
  blocks set !! b = Some item →
  blocks sizes !! b = Some size →
  item_losses log_prob set_dists set sizes !! b = Some (item_loss log_prob ds item size).
Proof.
  intros Hds Hitem Hsize. unfold item_losses.
  apply lookup_zip_with_Some. exists size, (ds, item).
  split_and!; [done|done|].
  apply lookup_zip_with_Some. by exists ds, item.
Qed.

(** The loss of one item in closed form. *)
Lemma item_loss_reference (ds : list Dist) (item : list Elem) (size : nat)
    (A : nat → Elem) (D : nat → Dist) :
  (1 ≤ size)%nat →
  (∀ i, (i < size)%nat → item !! i = Some (A i)) →
  (∀ j, (j < size)%nat → ds !! j = Some (D j)) →
  item_loss log_prob ds item size
  = Some (chamfer_reference (λ i j, log_prob (D j) (A i)) size).
Proof.
  intros Hsize HA HD. unfold item_loss.
  rewrite (take_fmap_seq A item size HA), (take_fmap_seq D ds size HD).
  destruct size as [|n]; [lia|].
  rewrite <- setwise_distance_seq.
  f_equal. rewrite <- list_fmap_compose.
  apply list_fmap_ext. intros _ i _.
  unfold compose. by rewrite <- list_fmap_compose.
Qed.
End ProbChamferFacts.

(** ** The probabilistic Chamfer loss: closed form, padding, shape *)

Lemma largest_le (sizes : list nat) (n : nat) :
  Forall (λ s, 1 ≤ s ≤ n)%nat sizes → (largest sizes ≤ n)%nat.
Proof. induction 1 as [|s sizes Hs _ IH]; simpl; lia. Qed.

Lemma prob_chamfer_distance_in_range {Elem Dist : Type} (log_prob : Dist → Elem → Q)
    (set_dists : tensor (list Dist)) (set : tensor (list Elem))
    (sizes : tensor nat) (max_size : nat) :
  well_shaped set_dists set sizes max_size →
  Forall (λ s, 1 ≤ s ≤ max_size)%nat (blocks sizes) →
  prob_chamfer_distance log_prob set_dists set sizes max_size
  = Ok (Tensor (drop_last 2 (shape set)) (item_losses log_prob set_dists set sizes)).
Proof.
  intros Hshape Hsizes. rewrite prob_chamfer_distance_unfold by done.
  apply largest_le in Hsizes. apply Nat.leb_le in Hsizes. by rewrite Hsizes.
Qed.

(** C1.  For a batch item with target elements [A 0 .. A (size-1)],
    predicted element distributions [D 0 .. D (size-1)] and cardinality
    [1 <= size <= max_size], the loss is the mean over the valid rows of the
    row maximum of the log-likelihoods plus the mean over the valid columns
    of the column maximum. *)
Theorem prob_chamfer_distance_closed_form {Elem Dist : Type}
    (log_prob : Dist → Elem → Q)
    (set_dists : tensor (list Dist)) (set : tensor (list Elem))
    (sizes : tensor nat) (max_size : nat)
    (b : nat) (ds : list Dist) (item : list Elem) (size : nat)
    (A : nat → Elem) (D : nat → Dist) :
  well_shaped set_dists set sizes max_size →
  Forall (λ s, 1 ≤ s ≤ max_size)%nat (blocks sizes) →
  blocks set_dists !! b = Some ds →
  blocks set !! b = Some item →
  blocks sizes !! b = Some size →
  (∀ i, (i < size)%nat → item !! i = Some (A i)) →
  (∀ j, (j < size)%nat → ds !! j = Some (D j)) →
  ∃ out,
    prob_chamfer_distance log_prob set_dists set sizes max_size = Ok out
    ∧ blocks out !! b
      = Some (Some (mean_below (λ i, max_upto (λ j, log_prob (D j) (A i)) (size - 1)) size
                    + mean_below (λ j, max_upto (λ i, log_prob (D j) (A i)) (size - 1)) size)%Q).
Proof.
  intros Hshape Hsizes Hds Hitem Hsize HA HD.
  eexists. split; [by apply prob_chamfer_distance_in_range|]. simpl.
  rewrite (item_losses_lookup log_prob _ _ _ b ds item size) by done.
  f_equal. apply item_loss_reference; [|done|done].
  eapply Forall_lookup_1 in Hsizes; [|done]. simpl in Hsizes. lia.
Qed.



(** C6.  On inputs of the contracted shapes, the score matrices assembled
    one target row at a time are the matrices of the full comparison, before
    any restriction to the valid block; hence the two losses coincide. *)
Theorem row_by_row_equals_full_tensor {Elem Dist : Type}
    (log_prob : Dist → Elem → Q)
    (set_dists : tensor (list Dist)) (set : tensor (list Elem))
    (sizes : tensor nat) (max_size : nat) :
  well_shaped set_dists set sizes max_size →
  log_probs_row_by_row log_prob set_dists set max_size
  = Ok (log_probs_full log_prob set_dists set)
  ∧ prob_chamfer_distance log_prob set_dists set sizes max_size
    = prob_chamfer_distance_full log_prob set_dists set sizes max_size.
Proof.
  intros (Hnumel & Hdists & Hsizes & Hitems & Hds).
  assert (log_probs_row_by_row log_prob set_dists set max_size
          = Ok (log_probs_full log_prob set_dists set)) as Hrows
    by (by apply row_by_row_is_full).
  split; [done|].
  unfold prob_chamfer_distance, prob_chamfer_distance_full. by rewrite Hrows.
Qed.

(** C10.  For a set tensor of shape [bs ++ [max_size; F]] (any leading
    batch axes [bs]) with one cardinality in [1, max_size] per item, the
    result has shape [bs], one entry per item in row-major order of the
    leading axes, and entry [b] is the finite loss of item [b]. *)
Theorem prob_chamfer_distance_output_shape {Elem Dist : Type}
    (log_prob : Dist → Elem → Q)
    (set_dists : tensor (list Dist)) (set : tensor (list Elem))
    (sizes : tensor nat) (max_size : nat) (bs : list nat) (F : nat) :
  shape set = bs ++ [max_size; F] →
  well_shaped set_dists set sizes max_size →
  Forall (λ s, 1 ≤ s ≤ max_size)%nat (blocks sizes) →
  ∃ out,
    prob_chamfer_distance log_prob set_dists set sizes max_size = Ok out
    ∧ shape out = bs
    ∧ length (blocks out) = numel bs
    ∧ ∀ b ds item size,
        blocks set_dists !! b = Some ds →
        blocks set !! b = Some item →
        blocks sizes !! b = Some size →
        ∃ v, blocks out !! b = Some (Some v)
             ∧ item_loss log_prob ds item size = Some v.
Proof.
  intros Hrank Hw Hsizes.
  assert (drop_last 2 (shape set) = bs) as Hbs.
  { unfold drop_last. rewrite Hrank, length_app. simpl.
    replace (length bs + 2 - 2)%nat with (length bs) by lia.
    by rewrite take_app_length. }
  eexists. split; [by apply prob_chamfer_distance_in_range|]. simpl.
  split; [done|]. split.
  - destruct Hw as (Hnumel & Hd & Hs & _).
    unfold item_losses. rewrite length_zip_with, length_zip, <- Hbs. lia.
  - intros b ds item size Hds Hitem Hsize.
    rewrite (item_losses_lookup log_prob _ _ _ b ds item size) by done.
    eapply Forall_lookup_1 in Hsizes; [|done]. simpl in Hsizes.
    destruct Hw as (_ & _ & _ & Hitems & Hdss).
    eapply Forall_lookup_1 in Hitems; [|done].
    eapply Forall_lookup_1 in Hdss; [|done]. simpl in *.
    destruct item as [|x item']; [simpl in *; lia|].
    destruct ds as [|d ds']; [simpl in *; lia|].
    rewrite (item_loss_reference log_prob _ _ size
               (λ i, default x ((x :: item') !! i)) (λ j, default d ((d :: ds') !! j)));
      [by eexists|lia| |].
    + intros i Hi.
      destruct (lookup_lt_is_Some_2 (x :: item') i) as [y Hy]; [lia|].
      by rewrite Hy.
    + intros j Hj.
      destruct (lookup_lt_is_Some_2 (d :: ds') j) as [y Hy]; [lia|].
      by rewrite Hy.
Qed.

(** *** The assertions of the self-test, evaluated

    [actual = prob_chamfer_distance(dist, inverted_mean, [3, 3], 3)] against
    [expected = reduce_mean(closest_prob) + reduce_mean(closest_prob)], and
    the imbalanced pair. *)

Example self_test_reversed_set :
  let inverted_mean := Tensor (shape SelfTest.mean) (reverse <$> blocks SelfTest.mean) in
  ∃ actual0 actual1 e0 e1 : Q,
    prob_chamfer_distance SelfTest.log_prob SelfTest.dist inverted_mean SelfTest.sizes33 3
    = Ok (Tensor [2%nat] [Some actual0; Some actual1])
    ∧ reduce_mean <$> SelfTest.closest_prob SelfTest.log_prob SelfTest.dist SelfTest.mean
      = [Some e0; Some e1]
    ∧ (actual0 == e0 + e0)%Q ∧ (actual1 == e1 + e1)%Q.
Proof.
  do 4 eexists. split_and!; [vm_compute; reflexivity| vm_compute; reflexivity|..];
    vm_compute; reflexivity.
Qed.

Example self_test_imbalanced :
  let imb_dist := SelfTest.independent_normal SelfTest.imb_mean 1 in
  ∃ actual c0 c1 : Q,
    prob_chamfer_distance SelfTest.log_prob imb_dist SelfTest.imb_true SelfTest.size2 2
    = Ok (Tensor [1%nat] [Some actual])
    ∧ SelfTest.closest_prob SelfTest.log_prob imb_dist SelfTest.imb_true = [[c0; c1]]
    ∧ (actual == c0 + (c0 + c1) / 2)%Q.
Proof.
  do 3 eexists. split_and!; [vm_compute; reflexivity| vm_compute; reflexivity|].
  vm_compute. reflexivity.
Qed.

(** *** The statements above on the data of the self-test *)

Lemma self_test_well_shaped :
  well_shaped SelfTest.dist SelfTest.mean SelfTest.sizes33 3.
Proof. repeat split; repeat constructor. Qed.

Lemma self_test_padded_well_shaped :
  well_shaped (SelfTest.independent_normal SelfTest.mean_padded (5 # 1000))
              SelfTest.mean_padded SelfTest.sizes23 3
  ∧ well_shaped SelfTest.dist SelfTest.mean SelfTest.sizes23 3.
Proof. split; repeat split; repeat constructor. Qed.

Lemma prob_chamfer_distance_closed_form_witness :
  let A := λ i : nat, default [] (SelfTest.mean1 !! i) in
  let D := λ j : nat, Normal.Params (A j) (5 # 1000) in
  ∃ out,
    prob_chamfer_distance SelfTest.log_prob SelfTest.dist SelfTest.mean SelfTest.sizes33 3
    = Ok out
    ∧ blocks out !! 1%nat
      = Some (Some (mean_below (λ i, max_upto (λ j, SelfTest.log_prob (D j) (A i)) (3 - 1)) 3
                    + mean_below (λ j, max_upto (λ i, SelfTest.log_prob (D j) (A i)) (3 - 1)) 3)%Q).
Proof.
  intros A D.
  apply (prob_chamfer_distance_closed_form SelfTest.log_prob SelfTest.dist SelfTest.mean
           SelfTest.sizes33 3 1
           ((λ mu, Normal.Params mu (5 # 1000)) <$> SelfTest.mean1) SelfTest.mean1 3 A D).
  - exact self_test_well_shaped.
  - repeat constructor.
  - reflexivity.
  - reflexivity.
  - reflexivity.
  - intros [|[|[|i]]] Hi; [reflexivity|reflexivity|reflexivity|lia].
  - intros [|[|[|j]]] Hj; [reflexivity|reflexivity|reflexivity|lia].
Defined.


Lemma row_by_row_equals_full_tensor_witness :
  log_probs_row_by_row SelfTest.log_prob SelfTest.dist SelfTest.mean 3
  = Ok (log_probs_full SelfTest.log_prob SelfTest.dist SelfTest.mean)
  ∧ prob_chamfer_distance SelfTest.log_prob SelfTest.dist SelfTest.mean SelfTest.sizes33 3
    = prob_chamfer_distance_full SelfTest.log_prob SelfTest.dist SelfTest.mean
        SelfTest.sizes33 3.
Proof.
  apply row_by_row_equals_full_tensor. exact self_test_well_shaped.
Defined.

Lemma prob_chamfer_distance_output_shape_witness :
  ∃ out,
    prob_chamfer_distance SelfTest.log_prob SelfTest.dist SelfTest.mean SelfTest.sizes33 3
    = Ok out
    ∧ shape out = [2%nat]
    ∧ length (blocks out) = numel [2%nat]
    ∧ ∀ b ds item size,
        blocks SelfTest.dist !! b = Some ds →
        blocks SelfTest.mean !! b = Some item →
        blocks SelfTest.sizes33 !! b = Some size →
        ∃ v, blocks out !! b = Some (Some v)
             ∧ item_loss SelfTest.log_prob ds item size = Some v.
Proof.
  apply (prob_chamfer_distance_output_shape SelfTest.log_prob SelfTest.dist SelfTest.mean
           SelfTest.sizes33 3 [2%nat] 2).
  - reflexivity.
  - exact self_test_well_shaped.
  - repeat constructor.
Defined.

(** ** Self-match under independent Normal element distributions *)

Section MaxFacts.
Local Open Scope Q_scope.

Lemma max_upto_le (f : nat → Q) (n : nat) (bound : Q) :
  (∀ j, (j ≤ n)%nat → f j <= bound) → max_upto f n <= bound.
Proof.
  induction n as [|n IH]; intros Hf; simpl.
  - apply Hf. lia.
  - apply Q.max_lub; [apply IH; intros j Hj|]; apply Hf; lia.
Qed.

(** A maximum is attained where an entry dominates all others. *)
Lemma max_upto_attained (f : nat → Q) (n k : nat) :
  (k ≤ n)%nat → (∀ j, (j ≤ n)%nat → f j <= f k) → max_upto f n == f k.
Proof.
  induction n as [|n IH]; intros Hk Hf; simpl.
  - by replace k with 0%nat by lia.
  - destruct (decide (k = S n)) as [->|Hne].
    + apply Q.max_r. apply max_upto_le. intros j Hj. apply Hf. lia.
    + rewrite IH; [|lia|intros j Hj; apply Hf; lia].
      apply Q.max_l. apply Hf. lia.
Qed.

Lemma sum_below_ext (f g : nat → Q) (n : nat) :
  (∀ i, (i < n)%nat → f i == g i) → sum_below f n == sum_below g n.
Proof.
  induction n as [|n IH]; intros Hfg; simpl; [reflexivity|].
  rewrite IH, (Hfg n); [reflexivity|lia|]. intros i Hi. apply Hfg. lia.
Qed.

Lemma mean_below_ext (f g : nat → Q) (n : nat) :
  (∀ i, (i < n)%nat → f i == g i) → mean_below f n == mean_below g n.
Proof. intros Hfg. unfold mean_below. by rewrite (sum_below_ext f g n). Qed.

Lemma foldl_Qplus_le (l k : list Q) (a b : Q) :
  a <= b → Forall2 Qle l k → foldl Qplus a l <= foldl Qplus b k.
Proof.
  intros Hab Hlk. revert a b Hab.
  induction Hlk as [|x y l k Hxy _ IH]; intros a b Hab; simpl; [done|].
  apply IH. lra.
Qed.
End MaxFacts.

Section NormalFacts.
Local Open Scope Q_scope.
Variable log_normalization : Q → Q.

Lemma log_prob1_le (mu sigma x : Q) :
  Normal.log_density1 log_normalization mu sigma x <= - log_normalization sigma.
Proof.
  unfold Normal.log_density1. simpl.
  generalize ((x - mu) / sigma). intros t. nra.
Qed.

Lemma log_prob1_self (mu sigma : Q) :
  Normal.log_density1 log_normalization mu sigma mu == - log_normalization sigma.
Proof.
  unfold Normal.log_density1, Qdiv. simpl.
  assert (mu - mu == 0) as -> by ring. ring.
Qed.

(** A point is never more likely than the centre is under its own
    distribution, whatever the other centre. *)
Lemma log_prob_le_self (sigma : Q) (mu mu' x : list Q) :
  length x = length mu → length mu' = length mu →
  Normal.log_density log_normalization (Normal.Params mu sigma) x
  <= Normal.log_density log_normalization (Normal.Params mu' sigma) mu'.
Proof.
  intros Hx Hmu'. unfold Normal.log_density, reduce_sum. simpl.
  apply foldl_Qplus_le; [lra|].
  revert x mu' Hx Hmu'.
  induction mu as [|m mu IH]; intros [|xf x] [|m' mu'] Hx Hmu';
    simpl in *; try done; try (by constructor).
  constructor; [|apply IH; lia].
  rewrite log_prob1_self. apply log_prob1_le.
Qed.

(** Self-match of [n] elements with [F] features each: both directional
    maxima sit on the diagonal of the score matrix. *)
Lemma self_match_maxima (sigma : Q) (A : nat → list Q) (n F i : nat) :
  (∀ k, (k ≤ n)%nat → length (A k) = F) → (i ≤ n)%nat →
  let score := λ i j, Normal.log_density log_normalization (Normal.Params (A j) sigma) (A i) in
  max_upto (λ j, score i j) n == score i i
  ∧ max_upto (λ j, score j i) n == score i i.
Proof.
  intros HF Hi score.
  split.
  - apply (max_upto_attained (λ j, score i j) n i Hi). intros j Hj.
    unfold score. apply log_prob_le_self; rewrite !HF; done.
  - apply (max_upto_attained (λ j, score j i) n i Hi). intros j Hj.
    unfold score. apply log_prob_le_self; rewrite !HF; done.
Qed.

Lemma self_match_reference (sigma : Q) (A : nat → list Q) (n F : nat) :
  (∀ k, (k ≤ n)%nat → length (A k) = F) →
  let score := λ i j, Normal.log_density log_normalization (Normal.Params (A j) sigma) (A i) in
  chamfer_reference score (S n) == 2 * mean_below (λ i, score i i) (S n).
Proof.
  intros HF score. unfold chamfer_reference.
  replace (S n - 1)%nat with n by lia.
  rewrite (mean_below_ext _ (λ i, score i i) (S n)).
  2:{ intros i Hi. apply (self_match_maxima sigma A n F i); [done|lia]. }
  rewrite (mean_below_ext (λ j, max_upto (λ i, score i j) n) (λ i, score i i) (S n)).
  2:{ intros i Hi. apply (self_match_maxima sigma A n F i); [done|lia]. }
  ring.
Qed.

(** With a positive scale every score is a number, the log-density. *)
Lemma log_prob_positive_scale (d : Normal.params) (x : list Q) :
  0 < Normal.scale d →
  Normal.log_prob log_normalization d x = Some (Normal.log_density log_normalization d x).
Proof.
  intros Hscale. unfold Normal.log_prob, Normal.log_density.
  generalize (Normal.loc d). intros mus.
  assert (mapM (λ p : Q * Q, Normal.log_prob1 log_normalization p.1 (Normal.scale d) p.2)
               (zip mus x)
          = Some (zip_with (λ mu xf, Normal.log_density1 log_normalization mu
                                       (Normal.scale d) xf) mus x)) as ->; [|done].
  revert x. induction mus as [|mu mus IH]; intros [|xf x]; try done.
  csimpl. rewrite IH. unfold Normal.log_prob1.
  destruct (Qlt_le_dec 0 (Normal.scale d)) as [|Hle]; [done|lra].
Qed.

(** With a scale that is not positive no score of a non-empty point is a
    number. *)
Lemma log_prob_nan (mus x : list Q) (sigma : Q) :
  sigma <= 0 → mus ≠ [] → x ≠ [] →
  Normal.log_prob log_normalization (Normal.Params mus sigma) x = None.
Proof.
  intros Hsigma Hmus Hx. destruct mus as [|mu mus], x as [|xf x]; try done.
  unfold Normal.log_prob. csimpl. unfold Normal.log_prob1.
  destruct (Qlt_le_dec 0 sigma) as [Hlt|]; [lra|done].
Qed.
End NormalFacts.

(** C7.  The target set [[0.5,0.75],[0.1,0.25],[0.35,0.9]] with cardinality 3,
    scored against independent Normal distributions of one fixed positive
    scale centred on its own elements.  Every score [log_prob] computes is a
    number; the loss is twice the mean of the three values
    [log_prob(mean | mean)], that is two thirds of their sum, as is the
    expected value the self-test forms from [closest_prob]; and in each row
    and each column of the score matrix no entry exceeds the diagonal one,
    which is what both directional maxima return. *)
Theorem self_match_loss (log_normalization : Q → Q) (scale : Q) :
  (0 < scale)%Q →
  let A := λ i : nat, default [] (SelfTest.mean0 !! i) in
  let D := λ j : nat, Normal.Params (A j) scale in
  let score := λ i j : nat, Normal.log_density log_normalization (D j) (A i) in
  let self_mean := ((score 0%nat 0%nat + score 1%nat 1%nat + score 2%nat 2%nat) / 3)%Q in
  let dist := SelfTest.independent_normal SelfTest.target scale in
  let closest_prob : list (list Q) :=
    SelfTest.closest_prob (Normal.log_density log_normalization) dist SelfTest.target in
  let score_matrices : list (list (list Q)) :=
    log_probs_full (Normal.log_density log_normalization) dist SelfTest.target in
  (∀ i j, Normal.log_prob log_normalization (D j) (A i) = Some (score i j))
  ∧ (∀ i j, (i < 3)%nat → (j < 3)%nat →
       (score i j <= score i i)%Q ∧ (score j i <= score i i)%Q)
  ∧ ∃ loss closest_mean : Q,
      prob_chamfer_distance (Normal.log_density log_normalization)
        dist SelfTest.target SelfTest.size3 3
      = Ok (Tensor [1%nat] [Some loss])
      ∧ (loss == 2 * self_mean)%Q
      ∧ reduce_mean <$> closest_prob = [Some closest_mean]
      ∧ (closest_mean == self_mean)%Q
      ∧ Forall2 (Forall2 Qeq)
          ((λ m : list (list Q), reduce_max <$> m) <$> score_matrices) closest_prob
      ∧ Forall2 (Forall2 Qeq) (reduce_max_rows <$> score_matrices) closest_prob.
Proof.
  intros Hscale A D score self_mean dist closest_prob score_matrices.
  assert (∀ k, (k ≤ 2)%nat → length (A k) = 2%nat) as HF.
  { intros [|[|[|k]]] Hk; [done|done|done|lia]. }
  assert (∀ i, (i ≤ 2)%nat →
            (max_upto (λ j, score i j) 2 == score i i)%Q
            ∧ (max_upto (λ j, score j i) 2 == score i i)%Q) as Hdiag.
  { intros i Hi. by apply (self_match_maxima log_normalization scale A 2 2 i HF). }
  assert (mean_below (λ i, score i i) 3 == self_mean)%Q as Hmean.
  { unfold mean_below, self_mean. simpl. change (inject_Z 3) with 3%Q.
    field. }
  split_and!.
  - intros i j. by apply log_prob_positive_scale.
  - intros i j Hi Hj. unfold score, D.
    split; apply log_prob_le_self; rewrite !HF by lia; done.
  - exists (chamfer_reference score 3), (mean_below (λ i, score i i) 3).
    split_and!.
    + rewrite prob_chamfer_distance_in_range;
        [|repeat split; repeat constructor|repeat constructor].
      reflexivity.
    + rewrite <- Hmean.
      apply (self_match_reference log_normalization scale A 2 2 HF).
    + reflexivity.
    + exact Hmean.
    + repeat constructor.
      * apply (proj1 (Hdiag 0%nat ltac:(lia))).
      * apply (proj1 (Hdiag 1%nat ltac:(lia))).
      * apply (proj1 (Hdiag 2%nat ltac:(lia))).
    + repeat constructor.
      * apply (proj2 (Hdiag 0%nat ltac:(lia))).
      * apply (proj2 (Hdiag 1%nat ltac:(lia))).
      * apply (proj2 (Hdiag 2%nat ltac:(lia))).
Qed.

Lemma self_match_loss_witness :
  let log_normalization := SelfTest.log_normalization in
  let scale := (5 # 1000)%Q in
  let A := λ i : nat, default [] (SelfTest.mean0 !! i) in
  let D := λ j : nat, Normal.Params (A j) scale in
  let score := λ i j : nat, Normal.log_density log_normalization (D j) (A i) in
  let self_mean := ((score 0%nat 0%nat + score 1%nat 1%nat + score 2%nat 2%nat) / 3)%Q in
  let dist := SelfTest.independent_normal SelfTest.target scale in
  let closest_prob : list (list Q) :=
    SelfTest.closest_prob (Normal.log_density log_normalization) dist SelfTest.target in
  let score_matrices : list (list (list Q)) :=
    log_probs_full (Normal.log_density log_normalization) dist SelfTest.target in
  (∀ i j, Normal.log_prob log_normalization (D j) (A i) = Some (score i j))
  ∧ (∀ i j, (i < 3)%nat → (j < 3)%nat →
       (score i j <= score i i)%Q ∧ (score j i <= score i i)%Q)
  ∧ ∃ loss closest_mean : Q,
      prob_chamfer_distance (Normal.log_density log_normalization)
        dist SelfTest.target SelfTest.size3 3
      = Ok (Tensor [1%nat] [Some loss])
      ∧ (loss == 2 * self_mean)%Q
      ∧ reduce_mean <$> closest_prob = [Some closest_mean]
      ∧ (closest_mean == self_mean)%Q
      ∧ Forall2 (Forall2 Qeq)
          ((λ m : list (list Q), reduce_max <$> m) <$> score_matrices) closest_prob
      ∧ Forall2 (Forall2 Qeq) (reduce_max_rows <$> score_matrices) closest_prob.
Proof. apply (self_match_loss SelfTest.log_normalization (5 # 1000)). reflexivity. Defined.

(** ** The one-cycle schedule *)

Section ScheduleFacts.
Import OneCycleSchedule.

Lemma Qle_bool_inject_Z (a b : Z) :
  Qle_bool (inject_Z a) (inject_Z b) = (a <=? b).
Proof. unfold Qle_bool. simpl. by rewrite !Z.mul_1_r. Qed.

Lemma inject_Z_nonzero (a : Z) : a ≠ 0 → ¬ (inject_Z a == 0)%Q.
Proof. unfold Qeq. simpl. lia. Qed.

Lemma truediv_nonzero (a b : Z) :
  b ≠ 0 → truediv a b = Some (inject_Z a / inject_Z b)%Q.
Proof. intros Hb. unfold truediv. by destruct (Z.eqb_spec b 0). Qed.

(** The three boundaries are ordered, and positive from a cycle of ten
    steps on. *)
Lemma boundaries_ordered (cycle_length : Z) :
  10 ≤ cycle_length →
  1 ≤ warmup_end_step cycle_length
  ∧ warmup_end_step cycle_length < max_end_step cycle_length
  ∧ max_end_step cycle_length < decay_end_step cycle_length
  ∧ decay_end_step cycle_length ≤ cycle_length.
Proof.
  intros Hc. unfold decay_end_step, max_end_step, warmup_end_step.
  Z.div_mod_to_equations. lia.
Qed.

Lemma boundaries_percent (cycle_length : Z) :
  cycle_length mod 10 = 0 →
  (inject_Z (warmup_end_step cycle_length) == percent 10 cycle_length)%Q
  ∧ (inject_Z (max_end_step cycle_length) == percent 40 cycle_length)%Q
  ∧ decay_end_step cycle_length = cycle_length.
Proof.
  intros Hc.
  unfold percent, decay_end_step, max_end_step, warmup_end_step, Qeq. simpl.
  Z.div_mod_to_equations. lia.
Qed.
End ScheduleFacts.

(** One goal per phase: the division of the branch is defined, and the
    branch formula is the interpolation (or the constant, or the tail) of
    the reference. *)
Ltac schedule_ramp :=
  rewrite truediv_nonzero by lia; simpl;
  unfold OneCycleSchedule.lerp, OneCycleSchedule.in_phase, Zminus;
  rewrite ?inject_Z_plus, ?inject_Z_opp;
  field.

Ltac schedule_phases w m d step :=
  rewrite !Qle_bool_inject_Z;
  destruct (Z.leb_spec step w);
    [|destruct (Z.leb_spec step m); [|destruct (Z.leb_spec step d)]];
  [ schedule_ramp; apply inject_Z_nonzero; lia
  | simpl; reflexivity
  | schedule_ramp; intros Hzero;
    apply (inject_Z_nonzero (d - m)); [lia|];
    unfold Zminus; rewrite inject_Z_plus, inject_Z_opp, <- Hzero; ring
  | rewrite ?truediv_nonzero by lia; simpl; reflexivity ].

(** C3, as stated: boundaries at 10%, 40% and 100% of every positive
    [cycle_length].  With [cycle_length = 15] the code ends the primary decay
    at step 14, so that step 15 is already in the tail (13/140) where the
    reference still gives 1/10; with [cycle_length = 5] the warm-up has no
    steps and step 0 has no value. *)
Lemma one_cycle_percent_boundaries_counterexample :
  OneCycleSchedule.decay_end_step 15 = 14
  ∧ OneCycleSchedule.call 15 15 = Some (13 # 140)%Q
  ∧ (OneCycleSchedule.reference_lr
       (OneCycleSchedule.percent 10 15) (OneCycleSchedule.percent 40 15) 15 15
     == 1 # 10)%Q
  ∧ ¬ OneCycleSchedule.returns
        (OneCycleSchedule.call 15 15)
        (OneCycleSchedule.reference_lr
           (OneCycleSchedule.percent 10 15) (OneCycleSchedule.percent 40 15) 15 15)
  ∧ OneCycleSchedule.call 5 0 = None
  ∧ ¬ OneCycleSchedule.returns
        (OneCycleSchedule.call 5 0)
        (OneCycleSchedule.reference_lr
           (OneCycleSchedule.percent 10 5) (OneCycleSchedule.percent 40 5) 5 0).
Proof.
  split_and!; try reflexivity.
  - intros Hreturns. vm_compute in Hreturns. discriminate Hreturns.
  - intros Hreturns. exact Hreturns.
Qed.

(** C3, amended.  For [cycle_length >= 10] and [step >= 0] both multipliers
    follow the piecewise schedule whose boundaries are the truncated
    [w = cycle_length/10], [m = w + 3*cycle_length/10] and
    [d = m + 6*cycle_length/10]; these are 10%, 40% and 100% of
    [cycle_length] when it is a multiple of ten. *)
Theorem one_cycle_schedule_piecewise (cycle_length step : Z) :
  10 ≤ cycle_length → 0 ≤ step →
  let w := OneCycleSchedule.warmup_end_step cycle_length in
  let m := OneCycleSchedule.max_end_step cycle_length in
  let d := OneCycleSchedule.decay_end_step cycle_length in
  OneCycleSchedule.returns
    (OneCycleSchedule.call cycle_length step)
    (OneCycleSchedule.reference_lr (inject_Z w) (inject_Z m) d step)
  ∧ OneCycleSchedule.returns
      (OneCycleSchedule.get_momentum cycle_length step)
      (OneCycleSchedule.reference_momentum (inject_Z w) (inject_Z m) d step)
  ∧ (cycle_length mod 10 = 0 →
     (inject_Z w == OneCycleSchedule.percent 10 cycle_length)%Q
     ∧ (inject_Z m == OneCycleSchedule.percent 40 cycle_length)%Q
     ∧ d = cycle_length).
Proof.
  intros Hc Hstep w m d.
  destruct (boundaries_ordered cycle_length Hc) as (Hw & Hwm & Hmd & Hd).
  fold w m d in Hw, Hwm, Hmd, Hd.
  split; [|split; [|apply boundaries_percent]].
  - unfold OneCycleSchedule.call, OneCycleSchedule.reference_lr,
      OneCycleSchedule.case.
    fold w m d. schedule_phases w m d step.
  - unfold OneCycleSchedule.get_momentum, OneCycleSchedule.reference_momentum,
      OneCycleSchedule.case.
    fold w m d. schedule_phases w m d step.
Qed.

(** The cycle of 200000 steps of [mnist_vae.py], at step 1000. *)
Lemma one_cycle_schedule_piecewise_witness :
  let w := OneCycleSchedule.warmup_end_step 200000 in
  let m := OneCycleSchedule.max_end_step 200000 in
  let d := OneCycleSchedule.decay_end_step 200000 in
  OneCycleSchedule.returns
    (OneCycleSchedule.call 200000 1000)
    (OneCycleSchedule.reference_lr (inject_Z w) (inject_Z m) d 1000)
  ∧ OneCycleSchedule.returns
      (OneCycleSchedule.get_momentum 200000 1000)
      (OneCycleSchedule.reference_momentum (inject_Z w) (inject_Z m) d 1000)
  ∧ (200000 mod 10 = 0 →
     (inject_Z w == OneCycleSchedule.percent 10 200000)%Q
     ∧ (inject_Z m == OneCycleSchedule.percent 40 200000)%Q
     ∧ d = 200000).
Proof.
  apply (one_cycle_schedule_piecewise 200000 1000); lia.
Defined.

(** ** The stochastic seed sampler *)

Section SamplePriorFacts.
Context {A : Type}.

Lemma split_rows_length (values : list A) (row_lengths : list nat) :
  length (split_rows values row_lengths) = length row_lengths.
Proof.
  revert values. induction row_lengths as [|n rest IH]; intros values; simpl;
    [done|]. by rewrite IH.
Qed.

(** Row [i] starts after the rows before it. *)
Lemma split_rows_lookup (values : list A) (row_lengths : list nat) (i size : nat) :
  row_lengths !! i = Some size →
  split_rows values row_lengths !! i
  = Some (take size (drop (reduce_sum_sizes (take i row_lengths)) values)).
Proof.
  revert values i. induction row_lengths as [|n rest IH]; intros values [|i] Hi;
    simpl in *; try done.
  - by simplify_eq.
  - rewrite (IH _ _ Hi), drop_drop. done.
Qed.

Lemma split_rows_Forall (P : A → Prop) (values : list A) (row_lengths : list nat) :
  Forall P values → Forall (Forall P) (split_rows values row_lengths).
Proof.
  revert values. induction row_lengths as [|n rest IH]; intros values Hv; simpl;
    constructor.
  - by apply Forall_take.
  - apply IH. by apply Forall_drop.
Qed.

Lemma reduce_sum_sizes_prefix (sizes : list nat) (i size : nat) :
  sizes !! i = Some size →
  (reduce_sum_sizes (take i sizes) + size ≤ reduce_sum_sizes sizes)%nat.
Proof.
  revert i. induction sizes as [|n rest IH]; intros [|i] Hi; simpl in *;
    try done.
  - simplify_eq. lia.
  - specialize (IH _ Hi). lia.
Qed.

Lemma resize_length (n : nat) (fill : A) (l : list A) :
  length (resize n fill l) = n.
Proof. unfold resize. rewrite length_app, length_take, length_replicate. lia. Qed.

Lemma resize_lookup_lt (n : nat) (fill : A) (l : list A) (j : nat) :
  (j < length l)%nat → (j < n)%nat → resize n fill l !! j = l !! j.
Proof.
  intros Hj Hn. unfold resize.
  rewrite lookup_app_l by (rewrite length_take; lia).
  by apply lookup_take_lt.
Qed.

Lemma resize_lookup_ge (n : nat) (fill : A) (l : list A) (j : nat) :
  (length l ≤ j)%nat → (j < n)%nat → resize n fill l !! j = Some fill.
Proof.
  intros Hj Hn. unfold resize.
  rewrite lookup_app_r by (rewrite length_take; lia).
  apply lookup_replicate_2. rewrite length_take. lia.
Qed.

Lemma resize_same_length (fill : A) (l : list A) :
  resize (length l) fill l = l.
Proof.
  unfold resize. rewrite take_ge by done.
  replace (length l - length l)%nat with 0%nat by lia. apply app_nil_r.
Qed.

Lemma resize_Forall (P : A → Prop) (n : nat) (fill : A) (l : list A) :
  P fill → Forall P l → Forall P (resize n fill l).
Proof.
  intros Hfill Hl. unfold resize. apply Forall_app. split.
  - by apply Forall_take.
  - by apply Forall_replicate.
Qed.
End SamplePriorFacts.

Lemma forallb_features (f : nat) (ragged : list (list (list Q))) :
  Forall (Forall (λ x, length x = f)) ragged →
  forallb (forallb (λ x : list Q, length x =? f)%nat) ragged = true.
Proof.
  intros Hall. apply forallb_forall. intros row Hrow%list_elem_of_In.
  apply forallb_forall. intros x Hx%list_elem_of_In. apply Nat.eqb_eq.
  rewrite Forall_forall in Hall. specialize (Hall row Hrow).
  rewrite Forall_forall in Hall. by apply Hall.
Qed.

(** C8.  When the prior returns the [sum(sizes)] samples it is asked for,
    each with [num_element_features] features, and every cardinality lies in
    [1, max_set_size], the sampler returns a tensor of shape
    [[B, max_set_size, num_element_features]]: item [i] holds its own
    consecutive samples at the positions below [sizes[i]] and the pad value
    in every feature of every later position. *)
Theorem sample_prior_batch_padded (_prior : nat → list (list Q)) (pad_value : Q)
    (max_set_size num_element_features : nat) (sizes : list nat) :
  let total_elements := reduce_sum_sizes sizes in
  length (_prior total_elements) = total_elements →
  Forall (λ x, length x = num_element_features) (_prior total_elements) →
  Forall (λ s, 1 ≤ s ≤ max_set_size)%nat sizes →
  sample_prior _prior sizes = _prior total_elements
  ∧ ∃ out,
      sample_prior_batch _prior pad_value max_set_size num_element_features sizes = Ok out
      ∧ length out = length sizes
      ∧ Forall (λ item, length item = max_set_size
                        ∧ Forall (λ x, length x = num_element_features) item) out
      ∧ ∀ i size, sizes !! i = Some size →
          ∃ item, out !! i = Some item
            ∧ (∀ j, (j < size)%nat →
                 item !! j = _prior total_elements !! (reduce_sum_sizes (take i sizes) + j)%nat)
            ∧ (∀ j, (size ≤ j < max_set_size)%nat →
                 item !! j = Some (replicate num_element_features pad_value)).
Proof.
  intros total_elements Hcount Hfeatures Hsizes.
  split; [done|].
  unfold sample_prior_batch, from_row_lengths, sample_prior.
  fold total_elements. rewrite Hcount, Nat.eqb_refl. simpl.
  set (values := _prior total_elements) in *.
  unfold to_tensor.
  rewrite forallb_features by (by apply split_rows_Forall).
  set (padding := replicate num_element_features pad_value).
  assert (resize (length sizes) (replicate max_set_size padding)
            (resize max_set_size padding <$> split_rows values sizes)
          = resize max_set_size padding <$> split_rows values sizes) as ->.
  { rewrite <- (split_rows_length values sizes).
    rewrite <- (length_fmap (resize max_set_size padding) (split_rows values sizes)).
    apply resize_same_length. }
  eexists. split; [done|].
  split; [by rewrite length_fmap, split_rows_length|]. split.
  - apply Forall_fmap, Forall_forall. intros row Hrow. simpl. split.
    + apply resize_length.
    + apply resize_Forall; [apply length_replicate|].
      pose proof (split_rows_Forall _ values sizes Hfeatures) as Hrows.
      rewrite Forall_forall in Hrows. by apply Hrows.
  - intros i size Hi.
    pose proof (reduce_sum_sizes_prefix sizes i size Hi) as Hoff.
    fold total_elements in Hoff.
    eapply Forall_lookup_1 in Hsizes; [|done]. simpl in Hsizes.
    set (offset := reduce_sum_sizes (take i sizes)) in *.
    assert (length (take size (drop offset values)) = size) as Hrow.
    { rewrite length_take, length_drop. lia. }
    eexists. split.
    { rewrite list_lookup_fmap, (split_rows_lookup values sizes i size Hi). done. }
    split.
    + intros j Hj. fold offset.
      rewrite resize_lookup_lt by lia.
      by rewrite lookup_take_lt, lookup_drop by done.
    + intros j Hj. fold offset. apply resize_lookup_ge; lia.
Qed.

(** Three items of cardinalities 2, 1 and 3 in a capacity of 3. *)
Lemma sample_prior_batch_padded_witness :
  sample_prior CountingPrior._prior CountingPrior.sizes = CountingPrior._prior 6
  ∧ ∃ out,
      sample_prior_batch CountingPrior._prior (-1)%Q 3 2 CountingPrior.sizes = Ok out
      ∧ length out = 3%nat
      ∧ Forall (λ item, length item = 3%nat ∧ Forall (λ x, length x = 2%nat) item) out
      ∧ ∀ i size, CountingPrior.sizes !! i = Some size →
          ∃ item, out !! i = Some item
            ∧ (∀ j, (j < size)%nat →
                 item !! j
                 = CountingPrior._prior 6
                     !! (reduce_sum_sizes (take i CountingPrior.sizes) + j)%nat)
            ∧ (∀ j, (size ≤ j < 3)%nat → item !! j = Some (replicate 2 (-1)%Q)).
Proof.
  apply (sample_prior_batch_padded CountingPrior._prior (-1)%Q 3 2 CountingPrior.sizes).
  - reflexivity.
  - repeat constructor.
  - repeat constructor.
Defined.

(** ** Cardinalities above the capacity *)

Lemma sequence_mask_clamp (sizes : list nat) (maxlen : nat) :
  sequence_mask sizes maxlen = sequence_mask (Nat.min maxlen <$> sizes) maxlen.
Proof.
  unfold sequence_mask. rewrite <- list_fmap_compose.
  apply list_fmap_ext. intros _ size _. simpl.
  apply list_fmap_ext. intros i j [-> Hi]%lookup_seq. simpl.
  destruct (Nat.ltb_spec i size), (Nat.ltb_spec i (maxlen `min` size)); lia || done.
Qed.

(** The mask of a cardinality above the capacity is the mask of a full
    set. *)
Lemma masked_values_clamp (sizes : list nat) (max_set_size : nat) :
  masked_values sizes max_set_size
  = masked_values (Nat.min max_set_size <$> sizes) max_set_size.
Proof. unfold masked_values. by rewrite sequence_mask_clamp. Qed.

(** C4, as stated: a batch with a cardinality above the capacity makes the
    forward pass fail.  With cardinality 5 and capacity 3 the mask is that
    of a full set and both forward passes return. *)
Lemma forward_pass_oversized_counterexample :
  (3 < 5)%nat
  ∧ masked_values [5%nat] 3
    = Array [Array [Array [Array [Scalar 0; Scalar 0; Scalar 0]]]]
  ∧ SetVaeV2.call Passthrough.tf (Passthrough.set_vae_v2 3)
      Passthrough.points Passthrough.points [5%nat] false
    = Ok Passthrough.points
  ∧ SetAE.call Passthrough.tf (Passthrough.set_ae 3)
      Passthrough.points Passthrough.points [5%nat]
    = Ok Passthrough.points
  ∧ ¬ raises (SetVaeV2.call Passthrough.tf (Passthrough.set_vae_v2 3)
                Passthrough.points Passthrough.points [5%nat] false)
  ∧ ¬ raises (SetAE.call Passthrough.tf (Passthrough.set_ae 3)
                Passthrough.points Passthrough.points [5%nat]).
Proof.
  split_and!; try reflexivity; try lia; intros [e He]; discriminate He.
Qed.

(** C4, amended.  Deriving the mask never fails: a cardinality above the
    capacity yields the mask of a full set, and either forward pass then
    runs exactly as on the batch whose cardinalities are truncated to the
    capacity. *)
Theorem forward_pass_truncates_cardinality (tf : tf_ops)
    (ae : SetAE.SetAutoEncoder) (vae : SetVaeV2.SetVariationalAutoEncoderV2)
    (initial_set sampled_set : ndarray) (sizes : list nat) (eval_mode : bool) :
  masked_values sizes (SetVaeV2.max_set_size vae)
  = masked_values (Nat.min (SetVaeV2.max_set_size vae) <$> sizes) (SetVaeV2.max_set_size vae)
  ∧ SetVaeV2.call tf vae initial_set sampled_set sizes eval_mode
    = SetVaeV2.call tf vae initial_set sampled_set
        (Nat.min (SetVaeV2.max_set_size vae) <$> sizes) eval_mode
  ∧ SetAE.call tf ae initial_set sampled_set sizes
    = SetAE.call tf ae initial_set sampled_set (Nat.min (SetAE.max_set_size ae) <$> sizes).
Proof.
  split; [apply masked_values_clamp|]. split.
  - unfold SetVaeV2.call. by rewrite <- masked_values_clamp.
  - unfold SetAE.call. by rewrite <- masked_values_clamp.
Qed.

(** ** [decode_set] of the layer-wise-conditioning model *)

(** C9.  [decode_set] hands the decoder two arguments where its [call]
    takes three: whatever the inputs, no distribution is returned, and when
    the tensor operations before the decoder succeed the exception is the
    [TypeError] of the call. *)
Theorem decode_set_raises (tf : tf_ops) (self : SetVaeV2.SetVariationalAutoEncoderV2)
    (set_latent initial_set : ndarray) (sizes : list nat) :
  ∃ e, SetVaeV2.decode_set tf self set_latent initial_set sizes = Raise e
       ∧ ∀ a b c,
           tf_expand_dims tf set_latent 1 = Ok a →
           tf_tile tf a [1; SetVaeV2.max_set_size self; 1]%nat = Ok b →
           tf_concat tf [initial_set; b] 2 = Ok c →
           e = TypeError.
Proof.
  unfold SetVaeV2.decode_set.
  destruct (tf_expand_dims tf set_latent 1) as [a|e] eqn:Ha; simpl.
  2:{ exists e. split; [done|]. intros ??? [=]. }
  destruct (tf_tile tf a _) as [b|e] eqn:Hb; simpl.
  2:{ exists e. split; [done|]. intros ??? [= <-]. by rewrite Hb. }
  destruct (tf_concat tf _ 2) as [c|e] eqn:Hc; simpl.
  2:{ exists e. split; [done|]. intros ??? [= <-] [= <-]%(eq_trans (eq_sym Hb)).
      by rewrite Hc. }
  exists TypeError. done.
Qed.

(** ** Which optimiser updates which parameters *)

(** C5.  A size-predictor training step applies its gradients through the
    reconstruction optimiser: the size predictor's own optimiser never
    advances, and every update of the size-predictor weights is logged
    against an optimiser that does not own them. *)
Theorem size_predictor_updated_by_reconstruction_optimiser (steps : nat) :
  let st := Trainer.train_size_predictor steps Trainer.init in
  Trainer.applied st
  = replicate steps (Trainer.reconstruction_optimiser, Trainer.size_predictor_weights)
  ∧ Trainer.iterations st Trainer.size_pred_optimiser = 0%nat
  ∧ Trainer.iterations st Trainer.reconstruction_optimiser = steps
  ∧ Trainer.owner Trainer.size_predictor_weights ≠ Trainer.reconstruction_optimiser.
Proof.
  simpl. unfold Trainer.train_size_predictor.
  induction steps as [|n (Happlied & Hsize & Hrec & Howner)]; [done|].
  simpl. rewrite Happlied, Hsize, Hrec.
  split_and!; [|done|done|done].
  clear. induction n as [|n IH]; [done|]. simpl. by rewrite IH.
Qed.


(** * Further properties of the code *)

(** ** The one-cycle schedule, phase by phase *)

Section SchedulePhases.
Import OneCycleSchedule.
Local Open Scope Q_scope.

Lemma inject_Z_lt (a b : Z) : (a < b)%Z → inject_Z a < inject_Z b.
Proof. unfold Qlt. simpl. lia. Qed.

Lemma inject_Z_le (a b : Z) : (a ≤ b)%Z → inject_Z a <= inject_Z b.
Proof. unfold Qle. simpl. lia. Qed.

Lemma ratio_bounds (a b : Z) :
  (0 ≤ a ≤ b)%Z → (0 < b)%Z → 0 <= inject_Z a / inject_Z b ∧ inject_Z a / inject_Z b <= 1.
Proof.
  intros [Ha Hab] Hb.
  assert (0 < inject_Z b) as Hb' by (by apply (inject_Z_lt 0 b)).
  split.
  - apply Qle_shift_div_l; [done|]. rewrite Qmult_0_l. by apply (inject_Z_le 0 a).
  - apply Qle_shift_div_r; [done|]. rewrite Qmult_1_l. by apply inject_Z_le.
Qed.

Lemma ratio_monotone (a a' b : Z) :
  (a ≤ a')%Z → (0 < b)%Z → inject_Z a / inject_Z b <= inject_Z a' / inject_Z b.
Proof.
  intros Ha Hb.
  assert (0 < inject_Z b) as Hb' by (by apply (inject_Z_lt 0 b)).
  apply Qle_shift_div_l; [done|].
  unfold Qdiv. rewrite <- Qmult_assoc, (Qmult_comm (/ _)), Qmult_inv_r, Qmult_1_r.
  - by apply inject_Z_le.
  - intros Hzero. rewrite Hzero in Hb'. by apply Qlt_irrefl in Hb'.
Qed.

(** The value of both multipliers in each of the four phases. *)
Lemma schedule_cases (cycle_length step : Z) :
  (10 ≤ cycle_length)%Z →
  let w := warmup_end_step cycle_length in
  let m := max_end_step cycle_length in
  let d := decay_end_step cycle_length in
  ((step ≤ w)%Z
   ∧ call cycle_length step = Some ((1 # 10) + (9 # 10) * (inject_Z step / inject_Z w))
   ∧ get_momentum cycle_length step
     = Some ((95 # 100) - (1 # 10) * (inject_Z step / inject_Z w)))
  ∨ ((w < step ≤ m)%Z
     ∧ call cycle_length step = Some 1
     ∧ get_momentum cycle_length step = Some (85 # 100))
  ∨ ((m < step ≤ d)%Z
     ∧ call cycle_length step
       = Some (1 - (9 # 10) * (inject_Z (step - m) / inject_Z (d - m)))
     ∧ get_momentum cycle_length step
       = Some ((85 # 100) + (1 # 10) * (inject_Z (step - m) / inject_Z (d - m))))
  ∨ ((d < step)%Z
     ∧ call cycle_length step
       = Some ((1 # 10) * (1 - inject_Z 1 / inject_Z d) ^ (step - d))
     ∧ get_momentum cycle_length step = Some (95 # 100)).
Proof.
  intros Hc w m d.
  destruct (boundaries_ordered cycle_length Hc) as (Hw & Hwm & Hmd & Hd).
  fold w m d in Hw, Hwm, Hmd, Hd.
  unfold call, get_momentum, case. fold w m d.
  destruct (Z.leb_spec step w); [|destruct (Z.leb_spec step m);
    [|destruct (Z.leb_spec step d)]].
  - left. by rewrite truediv_nonzero by lia.
  - right; left. split; [lia|done].
  - right; right; left. rewrite truediv_nonzero by lia. split; [lia|done].
  - right; right; right. by rewrite truediv_nonzero by lia.
Qed.

(** The ratio of the geometric tail lies strictly between 0 and 1. *)
Lemma tail_ratio_bounds (d : Z) :
  (2 ≤ d)%Z → 0 < 1 - inject_Z 1 / inject_Z d ∧ 1 - inject_Z 1 / inject_Z d < 1.
Proof.
  intros Hd.
  assert (0 < inject_Z d) as Hd' by (apply (inject_Z_lt 0 d); lia).
  assert (inject_Z 1 / inject_Z d <= 1 # 2) as Hhalf.
  { apply Qle_shift_div_r; [done|].
    assert (inject_Z 2 <= inject_Z d) as H2 by (by apply inject_Z_le).
    change (inject_Z 1) with 1. change (inject_Z 2) with 2 in H2. lra. }
  assert (0 < inject_Z 1 / inject_Z d) as Hpos.
  { apply Qlt_shift_div_l; [done|]. rewrite Qmult_0_l. done. }
  split; lra.
Qed.

Lemma Qpower_tail_step (q : Q) (n : Z) :
  0 < q → q <= 1 → (0 ≤ n)%Z → q ^ (n + 1) <= q ^ n.
Proof.
  intros Hq Hq1 Hn.
  rewrite Qpower_plus by (intros Hzero; rewrite Hzero in Hq; by apply Qlt_irrefl in Hq).
  pose proof (Qpower_0_lt q n Hq) as Hpos.
  change (q ^ 1) with q. nra.
Qed.

Lemma Qpower_tail_monotone (q : Q) (n n' : Z) :
  0 < q → q <= 1 → (0 ≤ n ≤ n')%Z → q ^ n' <= q ^ n.
Proof.
  intros Hq Hq1 [Hn Hnn'].
  replace n' with (n + Z.of_nat (Z.to_nat (n' - n)))%Z by lia.
  induction (Z.to_nat (n' - n)) as [|k IH].
  - rewrite Z.add_0_r. apply Qle_refl.
  - replace (n + Z.of_nat (S k))%Z with (n + Z.of_nat k + 1)%Z by lia.
    eapply Qle_trans; [apply Qpower_tail_step; [done|done|lia]|done].
Qed.

Lemma ratio_self (b : Z) : (0 < b)%Z → inject_Z b / inject_Z b == 1.
Proof.
  intros Hb. apply Qmult_inv_r. intros Hzero.
  pose proof (inject_Z_lt 0 b Hb) as Hpos. rewrite Hzero in Hpos.
  by apply Qlt_irrefl in Hpos.
Qed.

Lemma tail_value_bounds (d k : Z) :
  (2 ≤ d)%Z → (1 ≤ k)%Z →
  0 < (1 # 10) * (1 - inject_Z 1 / inject_Z d) ^ k
  ∧ (1 # 10) * (1 - inject_Z 1 / inject_Z d) ^ k < 1 # 10.
Proof.
  intros Hd Hk. destruct (tail_ratio_bounds d Hd) as [Hpos Hlt].
  set (q := 1 - inject_Z 1 / inject_Z d) in *.
  pose proof (Qpower_0_lt q k Hpos) as Hk0.
  assert (q ^ k <= q ^ 1) as Hk1.
  { apply Qpower_tail_monotone; [done|lra|lia]. }
  change (q ^ 1) with q in Hk1. split; lra.
Qed.
(** Both multipliers exist and are bounded, for later use. *)
Lemma schedule_bounds_phases (cycle_length step : Z) :
  (10 ≤ cycle_length)%Z → (0 ≤ step)%Z →
  ∃ lr momentum : Q,
    call cycle_length step = Some lr
    ∧ get_momentum cycle_length step = Some momentum
    ∧ 0 < lr ∧ lr <= 1 ∧ 85 # 100 <= momentum ∧ momentum <= 95 # 100.
Proof.
  intros Hc Hstep.
  destruct (boundaries_ordered cycle_length Hc) as (Hw & Hwm & Hmd & Hd).
  destruct (schedule_cases cycle_length step Hc)
    as [(Hphase & -> & ->)|[(Hphase & -> & ->)|[(Hphase & -> & ->)|(Hphase & -> & ->)]]];
    do 2 eexists; (split; [done|]); (split; [done|]).
  - destruct (ratio_bounds step (warmup_end_step cycle_length))
      as [Ht0 Ht1]; [lia|lia|].
    set (t := inject_Z step / _) in *. split_and!; lra.
  - split_and!; lra.
  - destruct (ratio_bounds (step - max_end_step cycle_length)
                (decay_end_step cycle_length - max_end_step cycle_length))
      as [Ht0 Ht1]; [lia|lia|].
    set (t := inject_Z _ / _) in *. split_and!; lra.
  - destruct (tail_value_bounds (decay_end_step cycle_length)
                (step - decay_end_step cycle_length))
      as [Hv0 Hv1]; [lia|lia|].
    set (v := (1 # 10) * _ ^ _) in *. split_and!; lra.
Qed.
End SchedulePhases.

(** X1.  From a cycle of ten steps on, both multipliers have a value at
    every step; below ten steps the warm-up is empty and step 0 divides by
    zero. *)
Theorem schedule_defined_from_ten_steps (cycle_length : Z) :
  0 ≤ cycle_length →
  (∀ step, 0 ≤ step →
     is_Some (OneCycleSchedule.call cycle_length step)
     ∧ is_Some (OneCycleSchedule.get_momentum cycle_length step))
  ↔ 10 ≤ cycle_length.
Proof.
  intros Hc. split.
  - intros Hdefined.
    destruct (Z_lt_le_dec cycle_length 10) as [Hsmall|]; [|done].
    destruct (Hdefined 0 ltac:(lia)) as [[v Hv] _].
    assert (OneCycleSchedule.warmup_end_step cycle_length = 0) as Hw.
    { unfold OneCycleSchedule.warmup_end_step. Z.div_mod_to_equations. lia. }
    unfold OneCycleSchedule.call, OneCycleSchedule.case in Hv.
    rewrite Hw in Hv. simpl in Hv. discriminate Hv.
  - intros Hten step Hstep.
    destruct (schedule_cases cycle_length step Hten)
      as [(_ & -> & ->)|[(_ & -> & ->)|[(_ & -> & ->)|(_ & -> & ->)]]]; eauto.
Qed.

(** X2.  For a cycle of at least ten steps the learning-rate multiplier
    stays in [0, 1]: it is at least 1/10 up to the end of the primary decay
    and at most 1/10 from there on.  The momentum multiplier stays in
    [0.85, 0.95].  The bounds are non-strict on purpose: in floats the
    geometric tail underflows to 0, and for a long cycle its ratio rounds
    to 1 so that the tail stays at the rounded 0.1. *)
Theorem schedule_bounds (cycle_length step : Z) :
  10 ≤ cycle_length → 0 ≤ step →
  ∃ lr momentum : Q,
    OneCycleSchedule.call cycle_length step = Some lr
    ∧ OneCycleSchedule.get_momentum cycle_length step = Some momentum
    ∧ (0 <= lr)%Q ∧ (lr <= 1)%Q
    ∧ (85 # 100 <= momentum)%Q ∧ (momentum <= 95 # 100)%Q
    ∧ (step ≤ OneCycleSchedule.decay_end_step cycle_length → (1 # 10 <= lr)%Q)
    ∧ (OneCycleSchedule.decay_end_step cycle_length ≤ step → (lr <= 1 # 10)%Q).
Proof.
  intros Hc Hstep.
  destruct (boundaries_ordered cycle_length Hc) as (Hw & Hwm & Hmd & Hd).
  destruct (schedule_cases cycle_length step Hc)
    as [(Hphase & -> & ->)|[(Hphase & -> & ->)|[(Hphase & -> & ->)|(Hphase & -> & ->)]]];
    do 2 eexists; (split; [done|]); (split; [done|]).
  - destruct (ratio_bounds step (OneCycleSchedule.warmup_end_step cycle_length))
      as [Ht0 Ht1]; [lia|lia|].
    set (t := (inject_Z step / _)%Q) in *.
    split_and!; try (intros; lra); intros; lia.
  - split_and!; try (intros; lra); intros; lia.
  - destruct (ratio_bounds
                (step - OneCycleSchedule.max_end_step cycle_length)
                (OneCycleSchedule.decay_end_step cycle_length
                 - OneCycleSchedule.max_end_step cycle_length))
      as [Ht0 Ht1]; [lia|lia|].
    assert (OneCycleSchedule.decay_end_step cycle_length ≤ step →
            (inject_Z (step - OneCycleSchedule.max_end_step cycle_length)
             / inject_Z (OneCycleSchedule.decay_end_step cycle_length
                         - OneCycleSchedule.max_end_step cycle_length) == 1)%Q)
      as Hend.
    { intros Hge.
      replace step with (OneCycleSchedule.decay_end_step cycle_length) by lia.
      apply ratio_self. lia. }
    set (t := (inject_Z _ / _)%Q) in *.
    split_and!; try (intros; lra).
    intros Hge. specialize (Hend Hge). lra.
  - destruct (tail_value_bounds (OneCycleSchedule.decay_end_step cycle_length)
                (step - OneCycleSchedule.decay_end_step cycle_length))
      as [Hv0 Hv1]; [lia|lia|].
    set (v := ((1 # 10) * _ ^ _)%Q) in *.
    split_and!; try (intros; lra); intros; lia.
Qed.

Lemma schedule_bounds_witness :
  ∃ lr momentum : Q,
    OneCycleSchedule.call 200000 250000 = Some lr
    ∧ OneCycleSchedule.get_momentum 200000 250000 = Some momentum
    ∧ (0 <= lr)%Q ∧ (lr <= 1)%Q
    ∧ (85 # 100 <= momentum)%Q ∧ (momentum <= 95 # 100)%Q
    ∧ (250000 ≤ OneCycleSchedule.decay_end_step 200000 → (1 # 10 <= lr)%Q)
    ∧ (OneCycleSchedule.decay_end_step 200000 ≤ 250000 → (lr <= 1 # 10)%Q).
Proof. apply (schedule_bounds 200000 250000); lia. Defined.

Lemma schedule_defined_from_ten_steps_witness :
  (∀ step, 0 ≤ step →
     is_Some (OneCycleSchedule.call 7 step)
     ∧ is_Some (OneCycleSchedule.get_momentum 7 step))
  ↔ 10 ≤ 7.
Proof. apply (schedule_defined_from_ten_steps 7). lia. Defined.

(** X3.  For a cycle of at least ten steps and steps [s <= s'], the
    learning-rate multiplier does not decrease inside the warm-up, equals 1
    from the end of the warm-up to the end of the plateau, and does not
    increase from the end of the plateau on, the geometric tail included. *)
Theorem schedule_rises_then_falls (cycle_length s s' : Z) :
  10 ≤ cycle_length → 0 ≤ s → s ≤ s' →
  let w := OneCycleSchedule.warmup_end_step cycle_length in
  let m := OneCycleSchedule.max_end_step cycle_length in
  ∃ v v' : Q,
    OneCycleSchedule.call cycle_length s = Some v
    ∧ OneCycleSchedule.call cycle_length s' = Some v'
    ∧ (s' ≤ w → (v <= v')%Q)
    ∧ (w ≤ s → s' ≤ m → (v == 1)%Q ∧ (v' == 1)%Q)
    ∧ (m ≤ s → (v' <= v)%Q).
Proof.
  intros Hc Hs Hss' w m.
  destruct (boundaries_ordered cycle_length Hc) as (Hw & Hwm & Hmd & Hd).
  fold w m in Hw, Hwm, Hmd.
  set (d := OneCycleSchedule.decay_end_step cycle_length) in *.
  pose proof (schedule_cases cycle_length s Hc) as Hcase.
  pose proof (schedule_cases cycle_length s' Hc) as Hcase'.
  simpl in Hcase, Hcase'. fold w m d in Hcase, Hcase'.
  assert (∀ a, (w ≤ a ≤ w)%Z → (inject_Z a / inject_Z w == 1)%Q) as Hend.
  { intros a Ha. replace a with w by lia. apply ratio_self. lia. }
  destruct Hcase as [(Hp & -> & _)|[(Hp & -> & _)|[(Hp & -> & _)|(Hp & -> & _)]]];
  destruct Hcase' as [(Hp' & -> & _)|[(Hp' & -> & _)|[(Hp' & -> & _)|(Hp' & -> & _)]]];
    try lia; do 2 eexists; (split; [done|]); (split; [done|]).
  - (* both in the warm-up *)
    pose proof (ratio_monotone s s' w Hss' ltac:(lia)) as Hmono.
    split_and!; [intros; lra| |intros; lia].
    intros Hws Hs'm. rewrite (Hend s), (Hend s') by lia. split; reflexivity.
  - (* warm-up, then plateau *)
    split_and!; [intros; lia| |intros; lia].
    intros Hws _. rewrite (Hend s) by lia. split; reflexivity.
  - split_and!; intros; lia.
  - split_and!; intros; lia.
  - (* both on the plateau *)
    split_and!; [intros; lia|intros; split; reflexivity|intros; lra].
  - (* plateau, then primary decay *)
    destruct (ratio_bounds (s' - m) (d - m)) as [Ht0 _]; [lia|lia|].
    split_and!; [intros; lia|intros; lia|intros; lra].
  - (* plateau, then tail *)
    destruct (tail_value_bounds d (s' - d)) as [_ Hv1]; [lia|lia|].
    split_and!; [intros; lia|intros; lia|intros; lra].
  - (* both in the primary decay *)
    pose proof (ratio_monotone (s - m) (s' - m) (d - m) ltac:(lia) ltac:(lia)) as Hmono.
    split_and!; [intros; lia|intros; lia|intros; lra].
  - (* primary decay, then tail *)
    destruct (ratio_bounds (s - m) (d - m)) as [_ Ht1]; [lia|lia|].
    destruct (tail_value_bounds d (s' - d)) as [_ Hv1]; [lia|lia|].
    split_and!; [intros; lia|intros; lia|intros; lra].
  - (* both in the tail *)
    destruct (tail_ratio_bounds d) as [Hq0 Hq1]; [lia|].
    pose proof (Qpower_tail_monotone _ (s - d) (s' - d) Hq0 ltac:(lra) ltac:(lia))
      as Hmono.
    split_and!; [intros; lia|intros; lia|intros; lra].
Qed.

Lemma schedule_rises_then_falls_witness :
  let w := OneCycleSchedule.warmup_end_step 200000 in
  let m := OneCycleSchedule.max_end_step 200000 in
  ∃ v v' : Q,
    OneCycleSchedule.call 200000 90000 = Some v
    ∧ OneCycleSchedule.call 200000 250000 = Some v'
    ∧ (250000 ≤ w → (v <= v')%Q)
    ∧ (w ≤ 90000 → 250000 ≤ m → (v == 1)%Q ∧ (v' == 1)%Q)
    ∧ (m ≤ 90000 → (v' <= v)%Q).
Proof. apply (schedule_rises_then_falls 200000 90000 250000); lia. Defined.

(** X4.  For a cycle of at least ten steps the learning-rate multiplier is
    1/10 at step 0, reaches 1 exactly at the end of the warm-up, is still 1
    at the end of the plateau, is back at 1/10 at the end of the primary
    decay, and one step later is 1/10 * (1 - 1/d); the momentum multiplier
    takes 0.95, 0.85, 0.85 and 0.95 at the same four steps. *)
Theorem schedule_boundary_values (cycle_length : Z) :
  10 ≤ cycle_length →
  let w := OneCycleSchedule.warmup_end_step cycle_length in
  let m := OneCycleSchedule.max_end_step cycle_length in
  let d := OneCycleSchedule.decay_end_step cycle_length in
  OneCycleSchedule.returns (OneCycleSchedule.call cycle_length 0) (1 # 10)
  ∧ OneCycleSchedule.returns (OneCycleSchedule.call cycle_length w) 1
  ∧ OneCycleSchedule.returns (OneCycleSchedule.call cycle_length m) 1
  ∧ OneCycleSchedule.returns (OneCycleSchedule.call cycle_length d) (1 # 10)
  ∧ OneCycleSchedule.returns (OneCycleSchedule.call cycle_length (d + 1))
      ((1 # 10) * (1 - 1 / inject_Z d))
  ∧ OneCycleSchedule.returns (OneCycleSchedule.get_momentum cycle_length 0) (95 # 100)
  ∧ OneCycleSchedule.returns (OneCycleSchedule.get_momentum cycle_length w) (85 # 100)
  ∧ OneCycleSchedule.returns (OneCycleSchedule.get_momentum cycle_length m) (85 # 100)
  ∧ OneCycleSchedule.returns (OneCycleSchedule.get_momentum cycle_length d) (95 # 100).
Proof.
  intros Hc w m d.
  destruct (boundaries_ordered cycle_length Hc) as (Hw & Hwm & Hmd & Hd).
  fold w m d in Hw, Hwm, Hmd, Hd.
  assert (inject_Z 0 / inject_Z w == 0)%Q as Hzero by (unfold Qdiv; apply Qmult_0_l).
  pose proof (ratio_self w ltac:(lia)) as Hone.
  assert (inject_Z (d - m) / inject_Z (d - m) == 1)%Q as Hone'
    by (apply ratio_self; lia).
  pose proof (schedule_cases cycle_length 0 Hc) as H0.
  pose proof (schedule_cases cycle_length w Hc) as H1.
  pose proof (schedule_cases cycle_length m Hc) as H2.
  pose proof (schedule_cases cycle_length d Hc) as H3.
  pose proof (schedule_cases cycle_length (d + 1) Hc) as H4.
  simpl in H0, H1, H2, H3, H4. fold w m d in H0, H1, H2, H3, H4.
  destruct H0 as [(? & E0 & M0)|[(? & _)|[(? & _)|(? & _)]]]; try lia.
  destruct H1 as [(? & E1 & M1)|[(? & _)|[(? & _)|(? & _)]]]; try lia.
  destruct H2 as [(? & _)|[(? & E2 & M2)|[(? & _)|(? & _)]]]; try lia.
  destruct H3 as [(? & _)|[(? & _)|[(? & E3 & M3)|(? & _)]]]; try lia.
  destruct H4 as [(? & _)|[(? & _)|[(? & _)|(? & E4 & _)]]]; try lia.
  rewrite E0, E1, E2, E3, E4, M0, M1, M2, M3. simpl.
  replace (d + 1 - d) with 1 by lia.
  rewrite Hzero, Hone, Hone'.
  split_and!; try reflexivity; try ring.
Qed.

Lemma schedule_boundary_values_witness :
  let w := OneCycleSchedule.warmup_end_step 200000 in
  let m := OneCycleSchedule.max_end_step 200000 in
  let d := OneCycleSchedule.decay_end_step 200000 in
  OneCycleSchedule.returns (OneCycleSchedule.call 200000 0) (1 # 10)
  ∧ OneCycleSchedule.returns (OneCycleSchedule.call 200000 w) 1
  ∧ OneCycleSchedule.returns (OneCycleSchedule.call 200000 m) 1
  ∧ OneCycleSchedule.returns (OneCycleSchedule.call 200000 d) (1 # 10)
  ∧ OneCycleSchedule.returns (OneCycleSchedule.call 200000 (d + 1))
      ((1 # 10) * (1 - 1 / inject_Z d))
  ∧ OneCycleSchedule.returns (OneCycleSchedule.get_momentum 200000 0) (95 # 100)
  ∧ OneCycleSchedule.returns (OneCycleSchedule.get_momentum 200000 w) (85 # 100)
  ∧ OneCycleSchedule.returns (OneCycleSchedule.get_momentum 200000 m) (85 # 100)
  ∧ OneCycleSchedule.returns (OneCycleSchedule.get_momentum 200000 d) (95 # 100).
Proof. apply (schedule_boundary_values 200000). lia. Defined.

(** X5.  Up to the end of the primary decay the momentum multiplier mirrors
    the learning-rate multiplier: [lr + 9 * momentum = 8.65] at every step,
    so the momentum is lowest exactly where the learning rate is highest. *)
Theorem schedule_momentum_mirrors_lr (cycle_length step : Z) :
  10 ≤ cycle_length → 0 ≤ step →
  step ≤ OneCycleSchedule.decay_end_step cycle_length →
  ∃ lr momentum : Q,
    OneCycleSchedule.call cycle_length step = Some lr
    ∧ OneCycleSchedule.get_momentum cycle_length step = Some momentum
    ∧ (lr + 9 * momentum == 865 # 100)%Q.
Proof.
  intros Hc Hstep Hd.
  destruct (schedule_cases cycle_length step Hc)
    as [(Hphase & -> & ->)|[(Hphase & -> & ->)|[(Hphase & -> & ->)|(Hphase & _)]]];
    try lia; do 2 eexists; (split; [done|]); (split; [done|]); ring.
Qed.

Lemma schedule_momentum_mirrors_lr_witness :
  ∃ lr momentum : Q,
    OneCycleSchedule.call 200000 150000 = Some lr
    ∧ OneCycleSchedule.get_momentum 200000 150000 = Some momentum
    ∧ (lr + 9 * momentum == 865 # 100)%Q.
Proof.
  apply (schedule_momentum_mirrors_lr 200000 150000); [lia|lia|].
  vm_compute. discriminate.
Defined.

(** X6.  The optimiser scales learning rate and weight decay by the same
    multiplier: at every iteration of a cycle of at least ten steps both have
    a value, their ratio is that of the constructor's arguments, and a
    non-negative base learning rate is never exceeded. *)
Theorem one_cycle_adamw_rates (self : OneCycleAdamW.optimiser) (iterations : Z) :
  10 ≤ OneCycleAdamW.cycle_length self → 0 ≤ iterations →
  (0 <= OneCycleAdamW.learning_rate self)%Q →
  ∃ lr wd beta_1 : Q,
    OneCycleAdamW.lr self iterations = Some lr
    ∧ OneCycleAdamW.wd self iterations = Some wd
    ∧ OneCycleAdamW.momentum self iterations = Some beta_1
    ∧ (lr * OneCycleAdamW.weight_decay self == wd * OneCycleAdamW.learning_rate self)%Q
    ∧ (0 <= lr)%Q ∧ (lr <= OneCycleAdamW.learning_rate self)%Q
    ∧ (beta_1 < OneCycleAdamW.beta_2)%Q.
Proof.
  intros Hc Hit Hlr.
  destruct (schedule_bounds_phases (OneCycleAdamW.cycle_length self) iterations Hc Hit)
    as (factor & momentum & Hcall & Hmom & Hpos & Hle & _ & Hmom95).
  unfold OneCycleAdamW.lr, OneCycleAdamW.wd, OneCycleAdamW.momentum.
  rewrite Hcall, Hmom. simpl. do 3 eexists.
  split_and!; try done.
  - ring.
  - nra.
  - nra.
  - unfold OneCycleAdamW.beta_2. lra.
Qed.

Lemma one_cycle_adamw_rates_witness :
  let self := {| OneCycleAdamW.learning_rate := 1 # 10000;
                 OneCycleAdamW.weight_decay := 1 # 100000;
                 OneCycleAdamW.cycle_length := 200000 |} in
  ∃ lr wd beta_1 : Q,
    OneCycleAdamW.lr self 500 = Some lr
    ∧ OneCycleAdamW.wd self 500 = Some wd
    ∧ OneCycleAdamW.momentum self 500 = Some beta_1
    ∧ (lr * OneCycleAdamW.weight_decay self == wd * OneCycleAdamW.learning_rate self)%Q
    ∧ (0 <= lr)%Q ∧ (lr <= OneCycleAdamW.learning_rate self)%Q
    ∧ (beta_1 < OneCycleAdamW.beta_2)%Q.
Proof.
  apply (one_cycle_adamw_rates
           {| OneCycleAdamW.learning_rate := 1 # 10000;
              OneCycleAdamW.weight_decay := 1 # 100000;
              OneCycleAdamW.cycle_length := 200000 |} 500).
  - simpl. lia.
  - lia.
  - simpl. lra.
Defined.

(** ** The probabilistic Chamfer loss: batches, bounds, permutations *)

Section ChamferMore.
Context {Elem Dist : Type}.
Variable log_prob : Dist → Elem → Q.
Local Open Scope Q_scope.

Lemma largest_le_capacity (sizes : list nat) (n : nat) :
  Forall (λ s, s ≤ n)%nat sizes → (largest sizes ≤ n)%nat.
Proof. induction 1 as [|s sizes Hs _ IH]; simpl; lia. Qed.

Lemma prob_chamfer_distance_within_capacity (set_dists : tensor (list Dist))
    (set : tensor (list Elem)) (sizes : tensor nat) (max_size : nat) :
  well_shaped set_dists set sizes max_size →
  Forall (λ s, s ≤ max_size)%nat (blocks sizes) →
  prob_chamfer_distance log_prob set_dists set sizes max_size
  = Ok (Tensor (drop_last 2 (shape set)) (item_losses log_prob set_dists set sizes)).
Proof.
  intros Hshape Hsizes. rewrite prob_chamfer_distance_unfold by done.
  apply largest_le_capacity in Hsizes. apply Nat.leb_le in Hsizes. by rewrite Hsizes.
Qed.

Lemma max_upto_ge (f : nat → Q) (n k : nat) :
  (k ≤ n)%nat → f k <= max_upto f n.
Proof.
  induction n as [|n IH]; intros Hk; simpl.
  - replace k with 0%nat by lia. apply Qle_refl.
  - destruct (decide (k = S n)) as [->|Hne].
    + apply Q.le_max_r.
    + eapply Qle_trans; [apply IH; lia|apply Q.le_max_l].
Qed.

Lemma sum_below_le (f g : nat → Q) (n : nat) :
  (∀ i, (i < n)%nat → f i <= g i) → sum_below f n <= sum_below g n.
Proof.
  induction n as [|n IH]; intros Hfg; simpl; [apply Qle_refl|].
  apply Qplus_le_compat; [apply IH; intros i Hi; apply Hfg; lia|apply Hfg; lia].
Qed.

Lemma mean_below_le (f g : nat → Q) (n : nat) :
  (1 ≤ n)%nat → (∀ i, (i < n)%nat → f i <= g i) → mean_below f n <= mean_below g n.
Proof.
  intros Hn Hfg. unfold mean_below.
  assert (0 < inject_Z (Z.of_nat n)) as Hpos by (apply (inject_Z_lt 0); lia).
  apply Qle_shift_div_l; [done|].
  unfold Qdiv. rewrite <- Qmult_assoc, (Qmult_comm (/ _)), Qmult_inv_r, Qmult_1_r.
  - by apply sum_below_le.
  - intros Hzero. rewrite Hzero in Hpos. by apply Qlt_irrefl in Hpos.
Qed.
End ChamferMore.

(** X7.  The loss of an item does not depend on the batch it is computed
    in: although the score matrices are trimmed to the largest cardinality
    of the whole batch, entry [b] of the result is the loss the item gets
    as a batch of its own. *)
Theorem prob_chamfer_distance_item_alone {Elem Dist : Type}
    (log_prob : Dist → Elem → Q)
    (set_dists : tensor (list Dist)) (set : tensor (list Elem))
    (sizes : tensor nat) (max_size F : nat)
    (b : nat) (ds : list Dist) (item : list Elem) (size : nat) :
  well_shaped set_dists set sizes max_size →
  Forall (λ s, s ≤ max_size)%nat (blocks sizes) →
  blocks set_dists !! b = Some ds →
  blocks set !! b = Some item →
  blocks sizes !! b = Some size →
  ∃ out v,
    prob_chamfer_distance log_prob set_dists set sizes max_size = Ok out
    ∧ blocks out !! b = Some v
    ∧ prob_chamfer_distance log_prob
        (Tensor [1; max_size]%nat [ds]) (Tensor [1; max_size; F]%nat [item])
        (Tensor [1%nat] [size]) max_size
      = Ok (Tensor [1%nat] [v]).
Proof.
  intros Hshape Hsizes Hds Hitem Hsize.
  pose proof Hshape as (_ & _ & _ & Hitems & Hdss).
  exists (Tensor (drop_last 2 (shape set)) (item_losses log_prob set_dists set sizes)),
         (item_loss log_prob ds item size).
  split; [by apply prob_chamfer_distance_within_capacity|].
  split; [by apply item_losses_lookup|].
  rewrite prob_chamfer_distance_within_capacity; [done| |].
  - repeat split; simpl; try done; constructor; try done.
    + by eapply (Forall_lookup_1 _ _ _ _ Hitems).
    + by eapply (Forall_lookup_1 _ _ _ _ Hdss).
  - constructor; [|done]. by eapply (Forall_lookup_1 _ _ _ _ Hsizes).
Qed.

Lemma prob_chamfer_distance_item_alone_witness :
  ∃ out v,
    prob_chamfer_distance SelfTest.log_prob SelfTest.dist SelfTest.mean SelfTest.sizes23 3
    = Ok out
    ∧ blocks out !! 0%nat = Some v
    ∧ prob_chamfer_distance SelfTest.log_prob
        (Tensor [1; 3]%nat [(λ mu, Normal.Params mu (5 # 1000)) <$> SelfTest.mean0])
        (Tensor [1; 3; 2]%nat [SelfTest.mean0])
        (Tensor [1%nat] [2%nat]) 3
      = Ok (Tensor [1%nat] [v]).
Proof.
  apply (prob_chamfer_distance_item_alone SelfTest.log_prob SelfTest.dist SelfTest.mean
           SelfTest.sizes23 3 2 0).
  - exact (proj2 self_test_padded_well_shaped).
  - repeat constructor.
  - reflexivity.
  - reflexivity.
  - reflexivity.
Defined.

(** X8.  The loss is never below the score of the identity pairing: for an
    item of cardinality [1 <= size <= max_size] it is at least twice the mean
    of the log-likelihoods of each target element under the distribution at
    its own position. *)
Theorem prob_chamfer_distance_at_least_identity_pairing {Elem Dist : Type}
    (log_prob : Dist → Elem → Q)
    (set_dists : tensor (list Dist)) (set : tensor (list Elem))
    (sizes : tensor nat) (max_size : nat)
    (b : nat) (ds : list Dist) (item : list Elem) (size : nat)
    (A : nat → Elem) (D : nat → Dist) :
  well_shaped set_dists set sizes max_size →
  Forall (λ s, 1 ≤ s ≤ max_size)%nat (blocks sizes) →
  blocks set_dists !! b = Some ds →
  blocks set !! b = Some item →
  blocks sizes !! b = Some size →
  (∀ i, (i < size)%nat → item !! i = Some (A i)) →
  (∀ j, (j < size)%nat → ds !! j = Some (D j)) →
  ∃ out loss,
    prob_chamfer_distance log_prob set_dists set sizes max_size = Ok out
    ∧ blocks out !! b = Some (Some loss)
    ∧ (2 * mean_below (λ i, log_prob (D i) (A i)) size <= loss)%Q.
Proof.
  intros Hshape Hsizes Hds Hitem Hsize HA HD.
  assert (1 ≤ size)%nat as Hpos.
  { eapply Forall_lookup_1 in Hsizes; [|done]. simpl in Hsizes. lia. }
  do 2 eexists. split; [by apply prob_chamfer_distance_in_range|]. simpl.
  rewrite (item_losses_lookup log_prob _ _ _ b ds item size) by done.
  rewrite (item_loss_reference log_prob ds item size A D) by done.
  split; [done|]. unfold chamfer_reference.
  assert (mean_below (λ i, log_prob (D i) (A i)) size
          <= mean_below (λ i, max_upto (λ j, log_prob (D j) (A i)) (size - 1)) size)%Q
    as Hrows.
  { apply mean_below_le; [done|]. intros i Hi.
    apply (max_upto_ge (λ j, log_prob (D j) (A i))). lia. }
  assert (mean_below (λ i, log_prob (D i) (A i)) size
          <= mean_below (λ j, max_upto (λ i, log_prob (D j) (A i)) (size - 1)) size)%Q
    as Hcols.
  { apply mean_below_le; [done|]. intros j Hj.
    apply (max_upto_ge (λ i, log_prob (D j) (A i))). lia. }
  lra.
Qed.

Lemma prob_chamfer_distance_at_least_identity_pairing_witness :
  let A := λ i : nat, default [] (SelfTest.mean1 !! i) in
  let D := λ j : nat, Normal.Params (default [] (SelfTest.mean0 !! j)) (5 # 1000) in
  ∃ out loss,
    prob_chamfer_distance SelfTest.log_prob
      (Tensor [1; 3]%nat [(λ mu, Normal.Params mu (5 # 1000)) <$> SelfTest.mean0])
      (Tensor [1; 3; 2]%nat [SelfTest.mean1]) SelfTest.size3 3
    = Ok out
    ∧ blocks out !! 0%nat = Some (Some loss)
    ∧ (2 * mean_below (λ i, SelfTest.log_prob (D i) (A i)) 3 <= loss)%Q.
Proof.
  intros A D.
  apply (prob_chamfer_distance_at_least_identity_pairing SelfTest.log_prob
           (Tensor [1; 3]%nat [(λ mu, Normal.Params mu (5 # 1000)) <$> SelfTest.mean0])
           (Tensor [1; 3; 2]%nat [SelfTest.mean1]) SelfTest.size3 3 0
           ((λ mu, Normal.Params mu (5 # 1000)) <$> SelfTest.mean0) SelfTest.mean1 3 A D).
  - repeat split; repeat constructor.
  - repeat constructor.
  - reflexivity.
  - reflexivity.
  - reflexivity.
  - intros [|[|[|i]]] Hi; [reflexivity|reflexivity|reflexivity|lia].
  - intros [|[|[|j]]] Hj; [reflexivity|reflexivity|reflexivity|lia].
Defined.

(** X9.  For an item of cardinality 1 both directional reductions are the
    single valid score: the loss is twice the log-likelihood of the first
    target element under the first distribution, whatever the padding. *)
Theorem prob_chamfer_distance_single_element {Elem Dist : Type}
    (log_prob : Dist → Elem → Q)
    (set_dists : tensor (list Dist)) (set : tensor (list Elem))
    (sizes : tensor nat) (max_size : nat)
    (b : nat) (d : Dist) (ds : list Dist) (x : Elem) (item : list Elem) :
  well_shaped set_dists set sizes max_size →
  Forall (λ s, 1 ≤ s ≤ max_size)%nat (blocks sizes) →
  blocks set_dists !! b = Some (d :: ds) →
  blocks set !! b = Some (x :: item) →
  blocks sizes !! b = Some 1%nat →
  ∃ out loss,
    prob_chamfer_distance log_prob set_dists set sizes max_size = Ok out
    ∧ blocks out !! b = Some (Some loss)
    ∧ (loss == 2 * log_prob d x)%Q.
Proof.
  intros Hshape Hsizes Hds Hitem Hsize.
  do 2 eexists. split; [by apply prob_chamfer_distance_in_range|]. simpl.
  rewrite (item_losses_lookup log_prob _ _ _ b (d :: ds) (x :: item) 1) by done.
  rewrite (item_loss_reference log_prob (d :: ds) (x :: item) 1 (λ _, x) (λ _, d));
    [|lia|by intros [|i] Hi; [|lia]|by intros [|j] Hj; [|lia]].
  split; [reflexivity|].
  unfold chamfer_reference, mean_below. simpl.
  change (inject_Z 1) with 1%Q. field.
Qed.

Lemma prob_chamfer_distance_single_element_witness :
  ∃ out loss,
    prob_chamfer_distance SelfTest.log_prob
      (Tensor [1; 3]%nat [(λ mu, Normal.Params mu (5 # 1000)) <$> SelfTest.mean0])
      (Tensor [1; 3; 2]%nat [SelfTest.mean1]) (Tensor [1%nat] [1%nat]) 3
    = Ok out
    ∧ blocks out !! 0%nat = Some (Some loss)
    ∧ (loss == 2 * SelfTest.log_prob (Normal.Params [1 # 2; 3 # 4] (5 # 1000))
                                   [4 # 10; 45 # 100])%Q.
Proof.
  apply (prob_chamfer_distance_single_element SelfTest.log_prob
           (Tensor [1; 3]%nat [(λ mu, Normal.Params mu (5 # 1000)) <$> SelfTest.mean0])
           (Tensor [1; 3; 2]%nat [SelfTest.mean1]) (Tensor [1%nat] [1%nat]) 3 0
           (Normal.Params [1 # 2; 3 # 4] (5 # 1000))
           [Normal.Params [1 # 10; 1 # 4] (5 # 1000);
            Normal.Params [35 # 100; 9 # 10] (5 # 1000)]
           [4 # 10; 45 # 100] [[1 # 2; 7 # 10]; [8 # 10; 1 # 4]])%Q.
  - repeat split; repeat constructor.
  - repeat constructor.
  - reflexivity.
  - reflexivity.
  - reflexivity.
Defined.



(** *** Reordering the valid target elements *)

Section PermutationFacts.
Local Open Scope Q_scope.

Lemma foldl_Qplus_proper (l : list Q) (a b : Q) :
  a == b → foldl Qplus a l == foldl Qplus b l.
Proof.
  revert a b. induction l as [|x l IH]; intros a b Hab; simpl; [done|].
  apply IH. by rewrite Hab.
Qed.

Lemma reduce_sum_Permutation (l k : list Q) :
  l ≡ₚ k → reduce_sum l == reduce_sum k.
Proof.
  unfold reduce_sum. generalize 0.
  intros a Hlk. revert a.
  induction Hlk as [|x l k _ IH|x y l|l k k' _ IH _ IH']; intros a; simpl.
  - reflexivity.
  - apply IH.
  - apply foldl_Qplus_proper. ring.
  - by rewrite IH.
Qed.

Lemma reduce_mean_Permutation (l k : list Q) :
  l ≡ₚ k → option_Forall2 Qeq (reduce_mean l) (reduce_mean k).
Proof.
  intros Hlk. pose proof (Permutation_length Hlk) as Hlen.
  destruct l as [|x l], k as [|y k]; simpl in Hlen; try lia.
  - constructor.
  - unfold reduce_mean. constructor.
    rewrite (reduce_sum_Permutation _ _ Hlk). simpl. rewrite Hlen. reflexivity.
Qed.

Lemma foldl_Qplus_Forall2 (l k : list Q) (a b : Q) :
  a == b → Forall2 Qeq l k → foldl Qplus a l == foldl Qplus b k.
Proof.
  intros Hab Hlk. revert a b Hab.
  induction Hlk as [|x y l k Hxy _ IH]; intros a b Hab; simpl; [done|].
  apply IH. by rewrite Hab, Hxy.
Qed.

Lemma reduce_mean_Forall2 (l k : list Q) :
  Forall2 Qeq l k → option_Forall2 Qeq (reduce_mean l) (reduce_mean k).
Proof.
  intros Hlk. pose proof (Forall2_length _ _ _ Hlk) as Hlen.
  destruct Hlk as [|x y l k Hxy Hlk]; [constructor|].
  unfold reduce_mean. constructor. rewrite Hlen.
  unfold reduce_sum.
  rewrite (foldl_Qplus_Forall2 (x :: l) (y :: k) 0 0);
    [reflexivity|reflexivity|by constructor].
Qed.

Lemma Forall2_Qeq_refl (l : list Q) : Forall2 Qeq l l.
Proof. induction l; constructor; [reflexivity|done]. Qed.

Lemma Forall2_Qeq_trans (l k m : list Q) :
  Forall2 Qeq l k → Forall2 Qeq k m → Forall2 Qeq l m.
Proof.
  intros Hlk. revert m. induction Hlk as [|x y l k Hxy _ IH]; intros m Hkm;
    inversion Hkm; subst; constructor; [by etransitivity|by apply IH].
Qed.

Lemma merge_max_nil_r (acc : list Q) : merge_max acc [] = acc.
Proof. by destruct acc. Qed.

Lemma merge_max_proper (acc acc' row : list Q) :
  Forall2 Qeq acc acc' → Forall2 Qeq (merge_max acc row) (merge_max acc' row).
Proof.
  intros Hacc. revert row.
  induction Hacc as [|x y acc acc' Hxy Hacc IH]; intros [|r row]; simpl.
  - constructor.
  - apply Forall2_Qeq_refl.
  - by constructor.
  - constructor; [by rewrite Hxy|apply IH].
Qed.

Lemma merge_max_comm (x y : list Q) :
  Forall2 Qeq (merge_max x y) (merge_max y x).
Proof.
  revert y. induction x as [|a x IH]; intros [|b y]; simpl;
    try apply Forall2_Qeq_refl.
  constructor; [apply Q.max_comm|apply IH].
Qed.

Lemma merge_max_swap (acc x y : list Q) :
  Forall2 Qeq (merge_max (merge_max acc x) y) (merge_max (merge_max acc y) x).
Proof.
  revert x y. induction acc as [|a acc IH]; intros x y.
  - simpl. apply merge_max_comm.
  - destruct x as [|b x], y as [|c y]; simpl; try apply Forall2_Qeq_refl.
    constructor; [|apply IH].
    rewrite <- !Q.max_assoc, (Q.max_comm b c). reflexivity.
Qed.

Lemma foldl_merge_max_proper (rows : list (list Q)) (acc acc' : list Q) :
  Forall2 Qeq acc acc' →
  Forall2 Qeq (foldl merge_max acc rows) (foldl merge_max acc' rows).
Proof.
  revert acc acc'. induction rows as [|row rows IH]; intros acc acc' Hacc; simpl;
    [done|]. apply IH. by apply merge_max_proper.
Qed.

(** The column maxima do not depend on the order of the rows. *)
Lemma reduce_max_rows_Permutation (rows rows' : list (list Q)) :
  rows ≡ₚ rows' → Forall2 Qeq (reduce_max_rows rows) (reduce_max_rows rows').
Proof.
  unfold reduce_max_rows. generalize (@nil Q).
  intros acc Hperm. revert acc.
  induction Hperm as [|x l k _ IH|x y l|l k k' _ IH _ IH']; intros acc; simpl.
  - apply Forall2_Qeq_refl.
  - apply IH.
  - apply foldl_merge_max_proper, merge_max_swap.
  - eapply Forall2_Qeq_trans; [apply IH|apply IH'].
Qed.

Lemma setwise_distance_Permutation (block block' : list (list Q)) :
  block ≡ₚ block' →
  option_Forall2 Qeq (setwise_distance block) (setwise_distance block').
Proof.
  intros Hperm. unfold setwise_distance.
  assert (reduce_max <$> block ≡ₚ reduce_max <$> block') as Hrows
    by (by apply fmap_Permutation).
  destruct (reduce_mean_Permutation _ _ Hrows) as [a a' Ha|]; simpl;
    [|constructor].
  destruct (reduce_mean_Forall2 _ _ (reduce_max_rows_Permutation _ _ Hperm))
    as [c c' Hc|]; simpl; constructor.
  by rewrite Ha, Hc.
Qed.
End PermutationFacts.

(** X11.  Reordering the valid elements of the target sets leaves the loss
    unchanged: two inputs with the same distributions and cardinalities
    whose targets hold, item by item, the same elements at the positions
    below the cardinality in any order get equal losses (the property the
    reversed set of the self-test checks). *)
Theorem prob_chamfer_distance_permutation_invariant {Elem Dist : Type}
    (log_prob : Dist → Elem → Q)
    (set_dists : tensor (list Dist)) (set set' : tensor (list Elem))
    (sizes : tensor nat) (max_size : nat) :
  well_shaped set_dists set sizes max_size →
  well_shaped set_dists set' sizes max_size →
  shape set = shape set' →
  Forall (λ s, s ≤ max_size)%nat (blocks sizes) →
  (∀ b item item' size, blocks set !! b = Some item → blocks set' !! b = Some item' →
     blocks sizes !! b = Some size → take size item ≡ₚ take size item') →
  ∃ out out',
    prob_chamfer_distance log_prob set_dists set sizes max_size = Ok out
    ∧ prob_chamfer_distance log_prob set_dists set' sizes max_size = Ok out'
    ∧ shape out = shape out'
    ∧ Forall2 (option_Forall2 Qeq) (blocks out) (blocks out').
Proof.
  intros Hw Hw' Hshape Hsizes Hperm.
  do 2 eexists.
  split; [by apply prob_chamfer_distance_within_capacity|].
  split; [by apply prob_chamfer_distance_within_capacity|].
  simpl. split; [by rewrite Hshape|].
  destruct Hw as (_ & Hd & Hs & _), Hw' as (_ & Hd' & Hs' & _).
  apply Forall2_same_length_lookup_2.
  { unfold item_losses. rewrite !length_zip_with. lia. }
  intros b v v' Hv Hv'.
  assert (b < length (blocks sizes))%nat as Hb.
  { apply lookup_lt_Some in Hv. unfold item_losses in Hv.
    rewrite length_zip_with in Hv. lia. }
  destruct (lookup_lt_is_Some_2 (blocks sizes) b) as [size Hsize]; [lia|].
  destruct (lookup_lt_is_Some_2 (blocks set) b) as [item Hitem]; [lia|].
  destruct (lookup_lt_is_Some_2 (blocks set') b) as [item' Hitem']; [lia|].
  destruct (lookup_lt_is_Some_2 (blocks set_dists) b) as [ds Hds]; [lia|].
  rewrite (item_losses_lookup log_prob _ _ _ b ds item size) in Hv by done.
  rewrite (item_losses_lookup log_prob _ _ _ b ds item' size) in Hv' by done.
  simplify_eq. unfold item_loss.
  apply setwise_distance_Permutation, fmap_Permutation. eauto.
Qed.

Lemma prob_chamfer_distance_permutation_invariant_witness :
  ∃ out out',
    prob_chamfer_distance SelfTest.log_prob SelfTest.dist SelfTest.mean SelfTest.sizes33 3
    = Ok out
    ∧ prob_chamfer_distance SelfTest.log_prob SelfTest.dist
        (Tensor (shape SelfTest.mean) (reverse <$> blocks SelfTest.mean))
        SelfTest.sizes33 3
      = Ok out'
    ∧ shape out = shape out'
    ∧ Forall2 (option_Forall2 Qeq) (blocks out) (blocks out').
Proof.
  apply prob_chamfer_distance_permutation_invariant.
  - exact self_test_well_shaped.
  - repeat split; repeat constructor.
  - reflexivity.
  - repeat constructor.
  - intros [|[|b]] item item' size Hitem Hitem' Hsize;
      simpl in Hitem, Hitem', Hsize; simplify_eq; simpl.
    + apply (reverse_Permutation [_; _; _]).
    + apply (reverse_Permutation [_; _; _]).
Defined.

(** ** Masks and cardinalities *)

Lemma fmap_eq_transfer {X Y Z : Type} (f : X → Y) (g : X → Z) (l k : list X) :
  (∀ x y, f x = f y → g x = g y) → f <$> l = f <$> k → g <$> l = g <$> k.
Proof.
  intros Hfg. revert k. induction l as [|x l IH]; intros [|y k] Heq;
    simplify_eq/=; [done|]. f_equal; [by apply Hfg|by apply IH].
Qed.

Lemma sequence_mask_row_inj (maxlen size size' : nat) :
  (λ j, j <? size)%nat <$> seq 0 maxlen = (λ j, j <? size')%nat <$> seq 0 maxlen →
  (maxlen `min` size = maxlen `min` size')%nat.
Proof.
  intros Hrows.
  assert (∀ j, (j < maxlen)%nat → (j <? size)%nat = (j <? size')%nat) as Hj.
  { intros j Hlt. apply (f_equal (λ l, l !! j)) in Hrows.
    rewrite !list_lookup_fmap, lookup_seq_lt in Hrows by done.
    simpl in Hrows. by simplify_eq. }
  destruct (decide (maxlen `min` size = maxlen `min` size')%nat) as [|Hne]; [done|].
  exfalso.
  destruct (decide (maxlen `min` size < maxlen `min` size')%nat).
  - specialize (Hj (maxlen `min` size)%nat ltac:(lia)).
    destruct (Nat.ltb_spec (maxlen `min` size) size),
             (Nat.ltb_spec (maxlen `min` size) size'); lia || done.
  - specialize (Hj (maxlen `min` size')%nat ltac:(lia)).
    destruct (Nat.ltb_spec (maxlen `min` size') size),
             (Nat.ltb_spec (maxlen `min` size') size'); lia || done.
Qed.

(** X12.  The mask carries each cardinality up to the capacity and nothing
    else: two batches get the same mask exactly when their cardinalities,
    cut at [max_set_size], coincide. *)
Theorem masked_values_determines_truncated_sizes (sizes sizes' : list nat)
    (max_set_size : nat) :
  masked_values sizes max_set_size = masked_values sizes' max_set_size
  ↔ Nat.min max_set_size <$> sizes = Nat.min max_set_size <$> sizes'.
Proof.
  split.
  - unfold masked_values, sequence_mask. intros [= Hrows].
    rewrite <- !list_fmap_compose in Hrows.
    eapply fmap_eq_transfer; [|exact Hrows].
    intros size size' [= Hrow]. apply sequence_mask_row_inj.
    rewrite <- (list_fmap_id ((λ j, j <? size)%nat <$> seq 0 max_set_size)).
    rewrite <- (list_fmap_id ((λ j, j <? size')%nat <$> seq 0 max_set_size)).
    eapply fmap_eq_transfer; [|exact Hrow].
    intros [] []; simpl; intros [=]; done.
  - intros Hsizes.
    by rewrite (masked_values_clamp sizes), (masked_values_clamp sizes'), Hsizes.
Qed.

(** ** The stochastic seed sampler on arbitrary cardinalities *)

Section SamplePriorMore.
Variable _prior : nat → list (list Q).
Variable pad_value : Q.
Variable max_set_size num_element_features : nat.

Lemma concat_split_rows {A : Type} (values : list A) (row_lengths : list nat) :
  concat (split_rows values row_lengths)
  = take (reduce_sum_sizes row_lengths) values.
Proof.
  revert values. induction row_lengths as [|n rest IH]; intros values; simpl.
  - by rewrite take_0.
  - by rewrite IH, take_take_drop.
Qed.

Lemma forallb_features_iff (f : nat) (ragged : list (list (list Q))) :
  forallb (forallb (λ x : list Q, length x =? f)%nat) ragged = true
  ↔ Forall (λ x, length x = f) (concat ragged).
Proof.
  induction ragged as [|row ragged IH]; simpl.
  - split; [constructor|done].
  - rewrite andb_true_iff, IH, Forall_app, forallb_forall.
    setoid_rewrite Nat.eqb_eq. rewrite (Forall_forall _ row).
    setoid_rewrite list_elem_of_In. done.
Qed.

(** The call when the prior keeps its part. *)
Lemma sample_prior_batch_unfold (sizes : list nat) :
  length (_prior (reduce_sum_sizes sizes)) = reduce_sum_sizes sizes →
  Forall (λ x, length x = num_element_features) (_prior (reduce_sum_sizes sizes)) →
  sample_prior_batch _prior pad_value max_set_size num_element_features sizes
  = Ok (resize max_set_size (replicate num_element_features pad_value)
          <$> split_rows (_prior (reduce_sum_sizes sizes)) sizes).
Proof.
  intros Hcount Hfeatures.
  unfold sample_prior_batch, from_row_lengths, sample_prior, to_tensor.
  rewrite Hcount, Nat.eqb_refl. simpl.
  rewrite forallb_features by (by apply split_rows_Forall).
  f_equal.
  rewrite <- (split_rows_length (_prior (reduce_sum_sizes sizes)) sizes) at 1.
  rewrite <- (length_fmap (resize max_set_size (replicate num_element_features pad_value))
               (split_rows (_prior (reduce_sum_sizes sizes)) sizes)).
  apply resize_same_length.
Qed.

Lemma take_resize_row {A : Type} (fill : A) (row : list A) (size n : nat) :
  length row = size → (size ≤ n)%nat → take size (resize n fill row) = row.
Proof.
  intros Hrow Hle. unfold resize.
  rewrite (take_ge row) by lia. rewrite take_app_le by lia. apply take_ge. lia.
Qed.

Lemma take_resized_rows {A : Type} (fill : A) (values : list A) (sizes : list nat)
    (n : nat) :
  (reduce_sum_sizes sizes ≤ length values)%nat →
  Forall (λ s, s ≤ n)%nat sizes →
  zip_with take sizes (resize n fill <$> split_rows values sizes)
  = split_rows values sizes.
Proof.
  intros Hsum Hall. revert values Hsum.
  induction Hall as [|s sizes Hs _ IH]; intros values Hsum; simpl in *; [done|].
  rewrite IH by (rewrite length_drop; lia).
  f_equal. apply take_resize_row; [|done]. rewrite length_take. lia.
Qed.
End SamplePriorMore.

(** X13.  The sampler succeeds exactly when the prior returns the
    [sum(sizes)] samples it was asked for and each of them has
    [num_element_features] features; the cardinalities themselves are never
    checked against [max_set_size]. *)
Theorem sample_prior_batch_succeeds_iff (_prior : nat → list (list Q)) (pad_value : Q)
    (max_set_size num_element_features : nat) (sizes : list nat) :
  let samples := _prior (reduce_sum_sizes sizes) in
  (∃ out, sample_prior_batch _prior pad_value max_set_size num_element_features sizes
          = Ok out)
  ↔ length samples = reduce_sum_sizes sizes
    ∧ Forall (λ x, length x = num_element_features) samples.
Proof.
  intros samples. split.
  - intros [out Hout].
    unfold sample_prior_batch, from_row_lengths, sample_prior, to_tensor in Hout.
    fold samples in Hout.
    destruct (Nat.eqb_spec (reduce_sum_sizes sizes) (length samples)) as [Hcount|];
      [|done]. simpl in Hout.
    destruct (forallb _ (split_rows samples sizes)) eqn:Hfeatures; [|done].
    split; [done|].
    apply forallb_features_iff in Hfeatures.
    rewrite concat_split_rows, take_ge in Hfeatures by lia. done.
  - intros [Hcount Hfeatures]. eexists.
    by apply sample_prior_batch_unfold.
Qed.

(** X14.  Whatever the cardinalities, a successful call returns one item
    per cardinality, each of [max_set_size] slots: item [i] has its own
    consecutive samples in the slots below [min(sizes[i], max_set_size)] and
    the pad value from slot [sizes[i]] on, so an empty item is all padding
    and an item above the capacity silently loses its samples from slot
    [max_set_size] on. *)
Theorem sample_prior_batch_any_sizes (_prior : nat → list (list Q)) (pad_value : Q)
    (max_set_size num_element_features : nat) (sizes : list nat) :
  let samples := _prior (reduce_sum_sizes sizes) in
  length samples = reduce_sum_sizes sizes →
  Forall (λ x, length x = num_element_features) samples →
  ∃ out,
    sample_prior_batch _prior pad_value max_set_size num_element_features sizes = Ok out
    ∧ length out = length sizes
    ∧ ∀ i size, sizes !! i = Some size →
        ∃ item, out !! i = Some item
          ∧ length item = max_set_size
          ∧ (∀ j, (j < size)%nat → (j < max_set_size)%nat →
               item !! j = samples !! (reduce_sum_sizes (take i sizes) + j)%nat)
          ∧ (∀ j, (size ≤ j < max_set_size)%nat →
               item !! j = Some (replicate num_element_features pad_value)).
Proof.
  intros samples Hcount Hfeatures.
  eexists. split; [by apply sample_prior_batch_unfold|].
  fold samples. clearbody samples.
  split; [by rewrite length_fmap, split_rows_length|].
  intros i size Hi.
  pose proof (reduce_sum_sizes_prefix sizes i size Hi) as Hoff.
  set (offset := reduce_sum_sizes (take i sizes)) in *.
  assert (length (take size (drop offset samples)) = size) as Hrow.
  { rewrite length_take, length_drop. lia. }
  eexists. split.
  { rewrite list_lookup_fmap, (split_rows_lookup samples sizes i size Hi). done. }
  fold offset.
  split; [apply resize_length|]. split.
  - intros j Hj Hcap. rewrite resize_lookup_lt by lia.
    by rewrite lookup_take_lt, lookup_drop by done.
  - intros j Hj. apply resize_lookup_ge; lia.
Qed.

Lemma sample_prior_batch_any_sizes_witness :
  let samples := CountingPrior._prior 6 in
  ∃ out,
    sample_prior_batch CountingPrior._prior (-1)%Q 2 2 CountingPrior.sizes = Ok out
    ∧ length out = 3%nat
    ∧ ∀ i size, CountingPrior.sizes !! i = Some size →
        ∃ item, out !! i = Some item
          ∧ length item = 2%nat
          ∧ (∀ j, (j < size)%nat → (j < 2)%nat →
               item !! j
               = samples !! (reduce_sum_sizes (take i CountingPrior.sizes) + j)%nat)
          ∧ (∀ j, (size ≤ j < 2)%nat → item !! j = Some (replicate 2 (-1)%Q)).
Proof.
  apply (sample_prior_batch_any_sizes CountingPrior._prior (-1)%Q 2 2 CountingPrior.sizes).
  - reflexivity.
  - repeat constructor.
Defined.

(** X15.  Nothing is lost or duplicated while the cardinalities fit: cutting
    every returned item back to its cardinality and concatenating the pieces
    gives the drawn samples in their order. *)
Theorem sample_prior_batch_round_trip (_prior : nat → list (list Q)) (pad_value : Q)
    (max_set_size num_element_features : nat) (sizes : list nat) :
  let samples := _prior (reduce_sum_sizes sizes) in
  length samples = reduce_sum_sizes sizes →
  Forall (λ x, length x = num_element_features) samples →
  Forall (λ s, s ≤ max_set_size)%nat sizes →
  ∃ out,
    sample_prior_batch _prior pad_value max_set_size num_element_features sizes = Ok out
    ∧ concat (zip_with take sizes out) = samples.
Proof.
  intros samples Hcount Hfeatures Hsizes.
  eexists. split; [by apply sample_prior_batch_unfold|].
  fold samples. clearbody samples.
  rewrite take_resized_rows by (done || lia).
  rewrite concat_split_rows. apply take_ge. lia.
Qed.

Lemma sample_prior_batch_round_trip_witness :
  ∃ out,
    sample_prior_batch CountingPrior._prior (-1)%Q 3 2 CountingPrior.sizes = Ok out
    ∧ concat (zip_with take CountingPrior.sizes out) = CountingPrior._prior 6.
Proof.
  apply (sample_prior_batch_round_trip CountingPrior._prior (-1)%Q 3 2 CountingPrior.sizes).
  - reflexivity.
  - repeat constructor.
  - repeat constructor.
Defined.

(** ** Size targets and decoded sizes *)

Section ArgmaxFacts.
Import SizePredictor.
Local Open Scope Q_scope.

Lemma argmax_from_spec (row pre : list Q) (best_index : nat) (best : Q) :
  pre !! best_index = Some best →
  (∀ x, x ∈ pre → x <= best) →
  ∃ v, (pre ++ row) !! argmax_from best_index best (length pre) row = Some v
       ∧ ∀ x, x ∈ pre ++ row → x <= v.
Proof.
  revert pre best_index best.
  induction row as [|x row IH]; intros pre best_index best Hbest Hle; simpl.
  - exists best. rewrite app_nil_r. done.
  - assert ((pre ++ [x]) ++ row = pre ++ x :: row) as Happ
      by (by rewrite <- app_assoc).
    assert (length (pre ++ [x]) = S (length pre)) as Hlen
      by (rewrite length_app; simpl; lia).
    destruct (Qle_bool x best) eqn:Hcmp.
    + apply Qle_bool_iff in Hcmp.
      destruct (IH (pre ++ [x]) best_index best) as (v & Hv & Hmax).
      * rewrite lookup_app_l; [done|]. by eapply lookup_lt_Some.
      * intros y [Hy| ->%list_elem_of_singleton]%elem_of_app; [by apply Hle|done].
      * rewrite Hlen, Happ in Hv. rewrite Happ in Hmax. eauto.
    + assert (best < x) as Hlt.
      { apply Qnot_le_lt. intros Hxb. apply Qle_bool_iff in Hxb. congruence. }
      destruct (IH (pre ++ [x]) (length pre) x) as (v & Hv & Hmax).
      * by rewrite list_lookup_middle.
      * intros y [Hy| ->%list_elem_of_singleton]%elem_of_app; [|apply Qle_refl].
        apply Qle_trans with best; [by apply Hle|by apply Qlt_le_weak].
      * rewrite Hlen, Happ in Hv. rewrite Happ in Hmax. eauto.
Qed.

Lemma argmax_spec (row : list Q) :
  row ≠ [] →
  ∃ v, row !! argmax row = Some v ∧ ∀ x, x ∈ row → x <= v.
Proof.
  destruct row as [|x row]; [done|]. intros _. unfold argmax.
  apply (argmax_from_spec row [x] 0 x); [done|].
  intros y ->%list_elem_of_singleton. apply Qle_refl.
Qed.

Lemma one_hot_lookup (index : Z) (depth j : nat) :
  (j < depth)%nat →
  one_hot index depth !! j = Some (if (Z.of_nat j =? index)%Z then 1 else 0).
Proof.
  intros Hj. unfold one_hot. by rewrite list_lookup_fmap, lookup_seq_lt.
Qed.

Lemma argmax_one_hot (k depth : nat) :
  (k < depth)%nat → argmax (one_hot (Z.of_nat k) depth) = k.
Proof.
  intros Hk.
  assert (length (one_hot (Z.of_nat k) depth) = depth) as Hlen
    by (unfold one_hot; by rewrite length_fmap, length_seq).
  destruct (argmax_spec (one_hot (Z.of_nat k) depth)) as (v & Hv & Hmax).
  { intros Hnil. rewrite Hnil in Hlen. simpl in Hlen. lia. }
  assert (1 <= v) as Hone.
  { apply Hmax. eapply list_elem_of_lookup_2.
    rewrite (one_hot_lookup _ _ k Hk). by rewrite Z.eqb_refl. }
  pose proof (lookup_lt_Some _ _ _ Hv) as Hr. rewrite Hlen in Hr.
  rewrite (one_hot_lookup _ _ _ Hr) in Hv.
  destruct (Z.eqb_spec (Z.of_nat (argmax (one_hot (Z.of_nat k) depth))) (Z.of_nat k))
    as [Heq|_]; [lia|].
  simplify_eq. by apply Qle_not_lt in Hone.
Qed.
End ArgmaxFacts.

(** X16.  The decoded size of a row of predictions is the position of a
    largest entry plus one, hence always within [1, max_set_size]: a
    predicted size is never 0 and never above the capacity. *)
Theorem predicted_sizes_in_range (pred_sizes : list (list Q)) (max_set_size : nat) :
  (1 ≤ max_set_size)%nat →
  Forall (λ row, length row = max_set_size) pred_sizes →
  Forall2 (λ row predicted,
             (1 ≤ predicted ≤ max_set_size)%nat
             ∧ ∃ v, row !! (predicted - 1)%nat = Some v ∧ ∀ x, x ∈ row → (x <= v)%Q)
          pred_sizes (SizePredictor.predicted_sizes pred_sizes).
Proof.
  intros Hcap Hrows. unfold SizePredictor.predicted_sizes.
  apply Forall2_fmap_r, Forall_Forall2_diag.
  eapply Forall_impl; [exact Hrows|]. intros row Hlen. simpl in *.
  destruct (argmax_spec row) as (v & Hv & Hmax).
  { intros ->. simpl in Hlen. lia. }
  pose proof (lookup_lt_Some _ _ _ Hv) as Hr.
  split; [lia|]. exists v.
  replace (SizePredictor.argmax row + 1 - 1)%nat with (SizePredictor.argmax row) by lia.
  done.
Qed.

Lemma predicted_sizes_in_range_witness :
  Forall2 (λ row predicted,
             (1 ≤ predicted ≤ 3)%nat
             ∧ ∃ v, row !! (predicted - 1)%nat = Some v ∧ ∀ x, x ∈ row → (x <= v)%Q)
          [[1 # 10; 7 # 10; 2 # 10]; [1 # 3; 1 # 3; 1 # 3]]%Q
          (SizePredictor.predicted_sizes [[1 # 10; 7 # 10; 2 # 10]; [1 # 3; 1 # 3; 1 # 3]]%Q).
Proof.
  apply (predicted_sizes_in_range [[1 # 10; 7 # 10; 2 # 10]; [1 # 3; 1 # 3; 1 # 3]]%Q 3).
  - lia.
  - repeat constructor.
Defined.

(** X17.  Target encoding and size decoding are inverse on the admissible
    cardinalities: decoding the one-hot targets of sizes in
    [1, max_set_size] gives the sizes back. *)
Theorem predicted_sizes_of_one_hot_sizes (sizes : list nat) (max_set_size : nat) :
  Forall (λ s, 1 ≤ s ≤ max_set_size)%nat sizes →
  SizePredictor.predicted_sizes (SizePredictor.one_hot_sizes sizes max_set_size) = sizes.
Proof.
  intros Hsizes. unfold SizePredictor.predicted_sizes, SizePredictor.one_hot_sizes.
  rewrite <- list_fmap_compose.
  rewrite <- (list_fmap_id sizes) at 2.
  apply Forall_fmap_ext_1. eapply Forall_impl; [exact Hsizes|].
  intros size Hsize. simpl in *.
  replace (Z.of_nat size - 1) with (Z.of_nat (size - 1)) by lia.
  rewrite argmax_one_hot by lia. lia.
Qed.

Lemma predicted_sizes_of_one_hot_sizes_witness :
  SizePredictor.predicted_sizes (SizePredictor.one_hot_sizes [3; 1; 2]%nat 3)
  = [3; 1; 2]%nat.
Proof.
  apply predicted_sizes_of_one_hot_sizes. repeat constructor.
Defined.

(** ** Choosing the checkpoint *)

Section CheckpointFacts.
Import Ascii String Checkpoints.
Local Open Scope string_scope.

Lemma insert_sorted_elem_of (x y : N * string) (l : list (N * string)) :
  y ∈ insert_sorted x l ↔ y = x ∨ y ∈ l.
Proof.
  induction l as [|z l IH]; simpl.
  - rewrite list_elem_of_singleton, elem_of_nil. tauto.
  - destruct (fst x <=? fst z)%N; rewrite !elem_of_cons, ?IH; tauto.
Qed.

(** Inserting into a list whose last entry has the largest key keeps that
    shape. *)
Lemma insert_sorted_last (x z : N * string) (l : list (N * string)) :
  last l = Some z → (∀ y, y ∈ l → (fst y ≤ fst z)%N) →
  ∃ z', last (insert_sorted x l) = Some z'
        ∧ ∀ y, y ∈ insert_sorted x l → (fst y ≤ fst z')%N.
Proof.
  revert z. induction l as [|y l IH]; intros z Hlast Hmax; [done|].
  simpl. destruct (N.leb_spec (fst x) (fst y)) as [Hxy|Hxy].
  - exists z. split.
    + by rewrite !last_cons, Hlast in *.
    + intros w [->|Hw]%elem_of_cons; [|by apply Hmax].
      etransitivity; [exact Hxy|]. apply Hmax. by left.
  - destruct l as [|y' l].
    + simpl in *. simplify_eq. exists x. split; [done|].
      intros w Hw. apply elem_of_cons in Hw as [->|Hw]; [lia|].
      apply list_elem_of_singleton in Hw as ->. lia.
    + destruct (IH z) as (z' & Hlast' & Hmax').
      * exact Hlast.
      * intros w Hw. apply Hmax. by right.
      * exists z'. split.
        -- rewrite last_cons, Hlast'. done.
        -- intros w [->|Hw]%elem_of_cons; [|by apply Hmax'].
           assert (z ∈ y' :: l) as Hz.
           { apply last_Some_elem_of. exact Hlast. }
           etransitivity; [apply Hmax; by left|].
           apply Hmax', insert_sorted_elem_of. by right.
Qed.

Lemma sort_last (keyed : list (N * string)) :
  keyed ≠ [] →
  ∃ z, last (foldr insert_sorted [] keyed) = Some z
       ∧ z ∈ keyed
       ∧ ∀ y, y ∈ keyed → (fst y ≤ fst z)%N.
Proof.
  assert (∀ l y, y ∈ foldr insert_sorted [] l ↔ y ∈ l) as Hmem.
  { induction l as [|x l IH]; intros y; simpl; [done|].
    rewrite insert_sorted_elem_of, elem_of_cons, IH. done. }
  induction keyed as [|x keyed IH]; intros Hne; [done|]. simpl.
  destruct keyed as [|x' keyed].
  - simpl. exists x. split; [done|]. split; [by left|].
    intros y ->%list_elem_of_singleton. lia.
  - destruct IH as (z & Hlast & Hz & Hmax); [done|].
    destruct (insert_sorted_last x z _ Hlast) as (z' & Hlast' & Hmax').
    { intros y Hy. apply Hmax. by apply Hmem. }
    exists z'. split; [done|]. split.
    + apply last_Some_elem_of, insert_sorted_elem_of in Hlast'.
      destruct Hlast' as [->|Hin]; [by left|]. right. by apply Hmem.
    + intros y Hy. apply Hmax', insert_sorted_elem_of.
      apply elem_of_cons in Hy as [->|Hy]; [by left|]. right. by apply Hmem.
Qed.

Lemma with_keys_spec (entries : list string) (keyed : list (N * string)) :
  with_keys entries = Found keyed →
  snd <$> keyed = entries
  ∧ ∀ k x, (k, x) ∈ keyed → extract_sortable_value x = Found k.
Proof.
  revert keyed. induction entries as [|x entries IH]; intros keyed Hk; simpl in Hk.
  - simplify_eq. split; [done|]. by intros ?? ?%elem_of_nil.
  - destruct (extract_sortable_value x) as [k|] eqn:Hx; [|done].
    destruct (with_keys entries) as [keyed'|]; [|done]. simplify_eq.
    destruct (IH keyed' eq_refl) as [Hsnd Hkeys]. split; [by rewrite fmap_cons, Hsnd|].
    intros k' x' [[= -> ->]|Hin]%elem_of_cons; [done|by apply Hkeys].
Qed.

Lemma with_keys_defined (entries : list string) :
  (∀ x, x ∈ entries → ∃ k, extract_sortable_value x = Found k) →
  ∃ keyed, with_keys entries = Found keyed.
Proof.
  induction entries as [|x entries IH]; intros Hall; simpl; [by eexists|].
  destruct (Hall x) as [k ->]; [by left|].
  destruct IH as [keyed ->]; [intros y Hy; apply Hall; by right|]. by eexists.
Qed.
End CheckpointFacts.

(** The latest entry: listed, and of largest sort value. *)
Lemma select_latest_spec (step_ckpnts : list String.string) :
  step_ckpnts ≠ [] →
  (∀ x, x ∈ step_ckpnts → ∃ k, Checkpoints.extract_sortable_value x = Checkpoints.Found k) →
  ∃ chosen k,
    Checkpoints.select_step step_ckpnts (-1) = Checkpoints.Found chosen
    ∧ chosen ∈ step_ckpnts
    ∧ Checkpoints.extract_sortable_value chosen = Checkpoints.Found k
    ∧ ∀ x kx, x ∈ step_ckpnts →
        Checkpoints.extract_sortable_value x = Checkpoints.Found kx → (kx ≤ k)%N.
Proof.
  intros Hne Hkeys.
  destruct (with_keys_defined step_ckpnts Hkeys) as [keyed Hkeyed].
  destruct (with_keys_spec _ _ Hkeyed) as [Hsnd Hvalues].
  destruct (sort_last keyed) as ([k chosen] & Hlast & Hin & Hmax).
  { intros ->. by destruct step_ckpnts. }
  exists chosen, k.
  unfold Checkpoints.select_step, Checkpoints.sorted, Checkpoints.last_entry.
  simpl. rewrite Hkeyed, fmap_last, Hlast. simpl.
  split; [done|]. split.
  { rewrite <- Hsnd. by apply (list_elem_of_fmap_2 snd _ (k, chosen)). }
  split; [by apply Hvalues|].
  intros x kx Hx Hkx. rewrite <- Hsnd in Hx.
  apply list_elem_of_fmap in Hx as ([kx' x'] & -> & Hx'). simpl in *.
  rewrite (Hvalues _ _ Hx') in Hkx. simplify_eq.
  apply (Hmax (kx, x') Hx').
Qed.

(** X18.  Asked for the latest checkpoint ([load_step = -1]), the selection
    returns one of the listed folders whose sort value is largest, provided
    the list is not empty and every path contains a digit. *)
Theorem select_latest_has_largest_value (step_ckpnts : list String.string) :
  step_ckpnts ≠ [] →
  (∀ x, x ∈ step_ckpnts → ∃ k, Checkpoints.extract_sortable_value x = Checkpoints.Found k) →
  ∃ chosen k,
    Checkpoints.select_step step_ckpnts (-1) = Checkpoints.Found chosen
    ∧ chosen ∈ step_ckpnts
    ∧ Checkpoints.extract_sortable_value chosen = Checkpoints.Found k
    ∧ ∀ x kx, x ∈ step_ckpnts →
        Checkpoints.extract_sortable_value x = Checkpoints.Found kx → (kx ≤ k)%N.
Proof. apply select_latest_spec. Qed.

Section LatestExample.
Import Ascii String.
Local Open Scope string_scope.

Lemma select_latest_has_largest_value_witness :
  let step_ckpnts :=
    Checkpoints.entry_path "logs/checkpoints/vae/20201005-101530"
      <$> Checkpoints.example_tree "logs/checkpoints/vae/20201005-101530" in
  ∃ chosen k,
    Checkpoints.select_step step_ckpnts (-1) = Checkpoints.Found chosen
    ∧ chosen ∈ step_ckpnts
    ∧ Checkpoints.extract_sortable_value chosen = Checkpoints.Found k
    ∧ ∀ x kx, x ∈ step_ckpnts →
        Checkpoints.extract_sortable_value x = Checkpoints.Found kx → (kx ≤ k)%N.
Proof.
  apply select_latest_has_largest_value.
  - discriminate.
  - intros x Hx. vm_compute in Hx.
    repeat (apply elem_of_cons in Hx as [->|Hx]; [vm_compute; by eexists|]).
    by apply elem_of_nil in Hx.
Defined.
End LatestExample.

Section CheckpointSubstrings.
Import Ascii String Checkpoints.
Local Open Scope string_scope.

Lemma prefix_append (needle a b : string) :
  prefix needle a = true → prefix needle (a ++ b) = true.
Proof.
  revert a. induction needle as [|c needle IH]; intros a Ha;
    [by destruct (a ++ b)|].
  destruct a as [|c' a]; simpl in *; [discriminate|].
  destruct (ascii_dec c c'); [|discriminate]. by apply IH.
Qed.

Lemma contains_append_l (needle a b : string) :
  contains needle a = true → contains needle (a ++ b) = true.
Proof.
  induction a as [|c a IH]; intros Ha.
  - simpl in Ha. rewrite orb_false_r in Ha.
    destruct needle; [|done]. by destruct b.
  - simpl in Ha. apply orb_true_iff in Ha as [Hp|Hc].
    + change ((String c a) ++ b) with (String c (a ++ b)).
      cbn [contains]. apply orb_true_iff. left.
      by apply (prefix_append needle (String c a) b).
    + change ((String c a) ++ b) with (String c (a ++ b)).
      cbn [contains]. apply orb_true_iff. right. by apply IH.
Qed.

Lemma contains_entry_path (needle folder name : string) :
  contains needle folder = true → contains needle (entry_path folder name) = true.
Proof.
  intros Hc. unfold entry_path. destruct folder as [|c folder].
  - simpl in Hc. rewrite orb_false_r in Hc. destruct needle; [|done]. by destruct name.
  - destruct (prefix _ _); by apply contains_append_l.
Qed.
End CheckpointSubstrings.

(** X19.  A requested step is matched as a piece of text anywhere in the
    path, not as the step of the folder: when the decimal rendering of
    [load_step] occurs in the path of the run folder itself, the first
    listed checkpoint is chosen whatever its step. *)
Theorem select_step_matches_run_folder (latest_run first_name : String.string)
    (names : list String.string) (load_step : Z) :
  load_step ≠ -1 →
  Checkpoints.contains (Checkpoints.str load_step) latest_run = true →
  Checkpoints.select_step
    (Checkpoints.entry_path latest_run <$> first_name :: names) load_step
  = Checkpoints.Found (Checkpoints.entry_path latest_run first_name).
Proof.
  intros Hstep Hrun. unfold Checkpoints.select_step.
  destruct (Z.eqb_spec load_step (-1)); [done|].
  rewrite fmap_cons, filter_cons_True; [done|].
  by apply contains_entry_path.
Qed.

Section RunFolderExample.
Import Ascii String.
Local Open Scope string_scope.

Lemma select_step_matches_run_folder_witness :
  Checkpoints.select_step
    (Checkpoints.entry_path "logs/checkpoints/vae/20201005-101530"
       <$> "500" :: ["1500"; "1000"]) 1015
  = Checkpoints.Found
      (Checkpoints.entry_path "logs/checkpoints/vae/20201005-101530" "500").
Proof.
  apply select_step_matches_run_folder; [lia|reflexivity].
Defined.
End RunFolderExample.

(** X20.  With an explicit [load_step] the selection returns the first
    listed folder whose path contains the decimal rendering of the step,
    and raises [IndexError] exactly when no listed path contains it. *)
Theorem select_step_explicit (step_ckpnts : list String.string) (load_step : Z) :
  load_step ≠ -1 →
  let wanted := λ x, Checkpoints.contains (Checkpoints.str load_step) x = true in
  (Checkpoints.select_step step_ckpnts load_step = Checkpoints.Failed Checkpoints.IndexError
   ↔ Forall (λ x, ¬ wanted x) step_ckpnts)
  ∧ ∀ chosen,
      Checkpoints.select_step step_ckpnts load_step = Checkpoints.Found chosen
      ↔ ∃ earlier later,
          step_ckpnts = earlier ++ chosen :: later
          ∧ wanted chosen ∧ Forall (λ x, ¬ wanted x) earlier.
Proof.
  intros Hstep wanted. unfold Checkpoints.select_step.
  destruct (Z.eqb_spec load_step (-1)); [done|]. fold wanted.
  induction step_ckpnts as [|x l [IHfail IHfound]].
  - split; [split; [constructor|done]|].
    intros chosen. split; [done|]. intros (earlier & later & Heq & _).
    by destruct earlier.
  - destruct (decide (wanted x)) as [Hx|Hx].
    + rewrite filter_cons_True by done. simpl. split.
      * split; [done|]. intros Hall. by apply Forall_cons_1 in Hall as [? _].
      * intros chosen. split.
        -- intros [= ->]. exists [], l. split; [done|]. split; [done|constructor].
        -- intros (earlier & later & Heq & Hc & Hearlier).
           destruct earlier as [|y earlier]; simplify_eq/=; try done.
           by apply Forall_cons_1 in Hearlier as [? _].
    + rewrite filter_cons_False by done. split.
      * rewrite IHfail. split; [by constructor|]. by intros [_ ?]%Forall_cons_1.
      * intros chosen. rewrite IHfound. split.
        -- intros (earlier & later & -> & Hc & Hearlier).
           exists (x :: earlier), later. split; [done|]. split; [done|by constructor].
        -- intros (earlier & later & Heq & Hc & Hearlier).
           destruct earlier as [|y earlier]; simplify_eq/=; try done.
           apply Forall_cons_1 in Hearlier as [_ Hearlier].
           by exists earlier, later.
Qed.

Section ExplicitStepExample.
Import Ascii String.
Local Open Scope string_scope.

Lemma select_step_explicit_witness :
  let step_ckpnts := ["run/500"; "run/1500"; "run/1000"] in
  let wanted := λ x, Checkpoints.contains (Checkpoints.str 100) x = true in
  (Checkpoints.select_step step_ckpnts 100 = Checkpoints.Failed Checkpoints.IndexError
   ↔ Forall (λ x, ¬ wanted x) step_ckpnts)
  ∧ ∀ chosen,
      Checkpoints.select_step step_ckpnts 100 = Checkpoints.Found chosen
      ↔ ∃ earlier later,
          step_ckpnts = (earlier ++ chosen :: later)%list
          ∧ wanted chosen ∧ Forall (λ x, ¬ wanted x) earlier.
Proof.
  apply (select_step_explicit ["run/500"; "run/1500"; "run/1000"] 100). lia.
Defined.
End ExplicitStepExample.

(** *** The latest step *)

Section StepNames.
Import Ascii String Checkpoints.
Local Open Scope string_scope.

Lemma append_assoc (a b c : string) : (a ++ b) ++ c = a ++ b ++ c.
Proof. induction a as [|x a IH]; simpl; [done|]. by rewrite IH. Qed.

Lemma sub_non_digits_append (a b : string) :
  sub_non_digits (a ++ b) = sub_non_digits a ++ sub_non_digits b.
Proof.
  induction a as [|c a IH]; simpl; [done|].
  destruct (is_digit c); simpl; by rewrite IH.
Qed.

Lemma sub_non_digits_all_digits (name : string) :
  all_digits name = true → sub_non_digits name = name.
Proof.
  induction name as [|c name IH]; simpl; [done|].
  intros [Hc Hname]%andb_true_iff. rewrite Hc. by rewrite IH.
Qed.

Lemma decimal_from_append (acc : N) (a b : string) :
  decimal_from acc (a ++ b) = decimal_from (decimal_from acc a) b.
Proof. revert acc. induction a as [|c a IH]; intros acc; simpl; [done|]. apply IH. Qed.

Lemma digit_value_le (c : ascii) : is_digit c = true → (digit_value c ≤ 9)%N.
Proof.
  unfold is_digit, digit_value, nat_of_ascii.
  intros [Hlo Hhi]%andb_true_iff.
  apply Nat.leb_le in Hlo, Hhi. lia.
Qed.

Lemma digit_value_pos (c : ascii) :
  is_digit c = true → c ≠ "0"%char → (1 ≤ digit_value c)%N.
Proof.
  unfold is_digit, digit_value, nat_of_ascii.
  intros [Hlo Hhi]%andb_true_iff Hzero.
  apply Nat.leb_le in Hlo, Hhi.
  destruct (decide (N_of_ascii c = 48%N)) as [H48|]; [|lia].
  exfalso. apply Hzero. by rewrite <- (ascii_N_embedding c), H48.
Qed.

(** The digits that follow multiply the value read so far by a power of
    ten, and their own value stays below that power. *)
Lemma decimal_from_digits (name : string) :
  all_digits name = true →
  (∀ acc, decimal_from acc name
          = (acc * 10 ^ N.of_nat (String.length name) + decimal_from 0 name)%N)
  ∧ (decimal_from 0 name < 10 ^ N.of_nat (String.length name))%N.
Proof.
  induction name as [|c name IH]; simpl String.length; simpl decimal_from.
  - intros _. split; [intros acc; simpl; lia|simpl; lia].
  - intros [Hc Hname]%andb_true_iff. destruct (IH Hname) as [Hacc Hlt].
    pose proof (digit_value_le c Hc) as Hd.
    replace (N.of_nat (S (String.length name)))
      with (N.succ (N.of_nat (String.length name))) by lia.
    rewrite N.pow_succ_r'.
    set (p := (10 ^ N.of_nat (String.length name))%N) in *.
    split.
    + intros acc. rewrite (Hacc (acc * 10 + digit_value c)%N).
      rewrite (Hacc (0 * 10 + digit_value c)%N). lia.
    + rewrite (Hacc (0 * 10 + digit_value c)%N). nia.
Qed.

Lemma step_name_lower_bound (name : string) :
  step_name name → (2 ≤ String.length name)%nat →
  (10 ^ N.of_nat (String.length name - 1) ≤ decimal_from 0 name)%N.
Proof.
  intros (Hdigits & _ & Hzero) Hlen.
  destruct name as [|c name]; [simpl in Hlen; lia|].
  simpl in Hdigits. apply andb_true_iff in Hdigits as [Hc Hname].
  assert (c ≠ "0"%char) as Hc0.
  { intros ->. specialize (Hzero ltac:(by destruct name)).
    simplify_eq. simpl in Hlen. lia. }
  pose proof (digit_value_pos c Hc Hc0) as Hd.
  destruct (decimal_from_digits name Hname) as [Hacc _].
  simpl decimal_from. rewrite (Hacc (0 * 10 + digit_value c)%N).
  simpl String.length. replace (S (String.length name) - 1)%nat
    with (String.length name) by lia.
  nia.
Qed.

Lemma entry_path_shape (folder name : string) :
  ∃ sep, entry_path folder name = folder ++ sep ++ name ∧ sub_non_digits sep = EmptyString.
Proof.
  unfold entry_path. destruct folder as [|c folder].
  - by exists EmptyString.
  - destruct (prefix _ _); [by exists EmptyString|by exists "/"].
Qed.

(** The sort value of a step folder: the digits of the run folder followed
    by the digits of the step. *)
Lemma extract_step_folder (run name : string) :
  step_name name →
  extract_sortable_value (entry_path run name)
  = Found (decimal_from 0 (sub_non_digits run) * 10 ^ N.of_nat (String.length name)
           + decimal_from 0 name)%N.
Proof.
  intros (Hdigits & Hne & _).
  destruct (entry_path_shape run name) as (sep & -> & Hsep).
  unfold extract_sortable_value.
  rewrite !sub_non_digits_append, Hsep, (sub_non_digits_all_digits name Hdigits).
  simpl append.
  destruct (decimal_from_digits name Hdigits) as [Hacc _].
  destruct (sub_non_digits run ++ name) as [|c rest] eqn:Hall.
  - destruct (sub_non_digits run), name; simplify_eq/=.
  - rewrite <- Hall, decimal_from_append. f_equal. apply Hacc.
Qed.

Lemma pow10_le (a b : nat) : (a ≤ b)%nat → (10 ^ N.of_nat a ≤ 10 ^ N.of_nat b)%N.
Proof. intros Hab. apply N.pow_le_mono_r; lia. Qed.

(** Among step names, sort values and step numbers order alike. *)
Lemma step_value_order (run_value : N) (name name' : string) :
  step_name name → step_name name' →
  (run_value * 10 ^ N.of_nat (String.length name) + decimal_from 0 name
   ≤ run_value * 10 ^ N.of_nat (String.length name') + decimal_from 0 name')%N →
  (decimal_from 0 name ≤ decimal_from 0 name')%N.
Proof.
  intros Hname Hname' Hkeys.
  destruct (N.le_gt_cases (decimal_from 0 name) (decimal_from 0 name')) as [|Hgt];
    [done|exfalso].
  destruct (decimal_from_digits name (proj1 Hname)) as [_ Hlt].
  destruct (decimal_from_digits name' (proj1 Hname')) as [_ Hlt'].
  assert (1 ≤ String.length name)%nat as Hlen.
  { destruct Hname as (_ & Hne & _). destruct name; [done|simpl; lia]. }
  destruct (decide (String.length name < String.length name')%nat) as [Hshort|Hlong].
  - pose proof (step_name_lower_bound name' Hname' ltac:(lia)) as Hlow.
    pose proof (pow10_le (String.length name) (String.length name' - 1) ltac:(lia)).
    lia.
  - pose proof (pow10_le (String.length name') (String.length name) ltac:(lia)) as Hpow.
    pose proof (N.mul_le_mono_l _ _ run_value Hpow).
    lia.
Qed.
End StepNames.

(** X21.  When the step folders of the run carry the names [str(step)]
    gives them, asking for the latest checkpoint ([load_step = -1]) selects
    the folder of the largest step, whatever digits the run folder's own
    path contains and in whatever order the folders are listed. *)
Theorem select_latest_is_largest_step (run : String.string)
    (names : list String.string) :
  names ≠ [] →
  Forall Checkpoints.step_name names →
  ∃ name,
    Checkpoints.select_step (Checkpoints.entry_path run <$> names) (-1)
    = Checkpoints.Found (Checkpoints.entry_path run name)
    ∧ name ∈ names
    ∧ ∀ n, n ∈ names →
        (Checkpoints.decimal_from 0 n ≤ Checkpoints.decimal_from 0 name)%N.
Proof.
  intros Hne Hnames. rewrite Forall_forall in Hnames.
  destruct (select_latest_spec (Checkpoints.entry_path run <$> names))
    as (chosen & k & Hsel & Hin & Hk & Hmax).
  { by destruct names. }
  { intros x (n & -> & Hn)%list_elem_of_fmap.
    rewrite (extract_step_folder run n) by auto. by eexists. }
  apply list_elem_of_fmap in Hin as (name & -> & Hname).
  exists name. split; [done|]. split; [done|].
  intros n Hn.
  rewrite (extract_step_folder run name) in Hk by auto. simplify_eq.
  apply (step_value_order (Checkpoints.decimal_from 0 (Checkpoints.sub_non_digits run)));
    [auto|auto|].
  apply (Hmax (Checkpoints.entry_path run n)).
  - by apply list_elem_of_fmap_2.
  - by apply extract_step_folder; auto.
Qed.

Section LargestStepExample.
Import Ascii String.
Local Open Scope string_scope.

Lemma select_latest_is_largest_step_witness :
  ∃ name,
    Checkpoints.select_step
      (Checkpoints.entry_path "logs/checkpoints/vae/20201005-101530"
         <$> ["500"; "1500"; "1000"]) (-1)
    = Checkpoints.Found
        (Checkpoints.entry_path "logs/checkpoints/vae/20201005-101530" name)
    ∧ name ∈ ["500"; "1500"; "1000"]
    ∧ ∀ n, n ∈ ["500"; "1500"; "1000"] →
        (Checkpoints.decimal_from 0 n ≤ Checkpoints.decimal_from 0 name)%N.
Proof.
  apply select_latest_is_largest_step.
  - discriminate.
  - repeat constructor; (discriminate || (intros [=])).
Defined.
End LargestStepExample.
